(** * Eventful: event subscription and dispatch, and the [@emits] decorator

    A shallow embedding of [src/Eventful.ts] and [src/emits.ts].

    - Section [Interp] gives listeners a behaviour: a listener body is a
      script of calls back into the instance ([on], [off], [emit]) or a
      [throw]; the call stack is bounded by a depth budget, and every
      [callback.call(context, data)] is recorded in a trace.
    - Module [Eventful] is the mixin whose event map holds arrays
      ([Map<string, Array<[Function, any]>>], Eventful.ts lines 45-159;
      lines 343-442 carry the same three methods over [__eventMap]).
    - Module [EventfulSet] is the mixin whose event map holds sets
      ([Map<string, Set<[Function, any]>>], Eventful.ts lines 615-717).
    - Module [Instance] models objects with prototype chains, classes
      built with the mixin, and the [Symbol.hasInstance] test.
    - Module [Emits] is the decorator of emits.ts: the accessor pair it
      installs, the closure flag, the hidden slot and the microtask queue.
    - Module [Scenario] holds the listener bodies and classes of the
      examples.

    Definitions come first; the properties follow from "Properties" on. *)

From stdpp Require Import gmap strings list fin_maps.
From Stdlib Require Import ZArith Lia.

Open Scope string_scope.
Open Scope list_scope.

(** ** JavaScript values

    Numbers are integers here: floating point plays no part in the code.
    Objects, functions and symbols are references; two references are the
    same value exactly when their identifiers agree. *)

Inductive value : Type :=
  | VUndefined
  | VNull
  | VBool (b : bool)
  | VNum (n : Z)
  | VStr (s : string)
  | VSym (id : nat)
  | VObj (id : nat)
  | VFun (id : nat).

#[global] Instance value_eq_dec : EqDecision value.
Proof. solve_decision. Defined.

(** [a === b] *)
Definition strict_eq (a b : value) : bool := bool_decide (a = b).

(** [typeof v] *)
Definition typeof (v : value) : string :=
  match v with
  | VUndefined => "undefined"
  | VNull => "object"
  | VBool _ => "boolean"
  | VNum _ => "number"
  | VStr _ => "string"
  | VSym _ => "symbol"
  | VObj _ => "object"
  | VFun _ => "function"
  end.

(** [typeof v === 'function'] *)
Definition is_function (v : value) : bool :=
  bool_decide (typeof v = "function").

(** ToBoolean, as used by [!v] and [if (v)]. *)
Definition truthy (v : value) : bool :=
  match v with
  | VUndefined | VNull => false
  | VBool b => b
  | VNum n => negb (n =? 0)%Z
  | VStr s => negb (bool_decide (s = ""%string))
  | VSym _ | VObj _ | VFun _ => true
  end.

(** ** Exceptions and completions *)

Inductive exn : Type :=
  | Error (msg : string)
  | TypeError (msg : string).

(** How a call ends: it returns, it throws, or the call stack is exhausted. *)
Inductive completion : Type :=
  | Normal
  | Throw (e : exn)
  | Overflow.

(** A subscription entry: the tuple [[callback, context]]. *)
Abbreviation entry := (value * value)%type.

(** One observed listener invocation [callback.call(context, data)]. *)
Record invocation : Type := Invoked {
  callee : value;
  receiver : value;
  argument : value
}.

#[global] Instance invocation_eq_dec : EqDecision invocation.
Proof. solve_decision. Defined.

Definition invocation_of (data : value) (t : entry) : invocation :=
  Invoked t.1 t.2 data.

(** [Array.prototype.findIndex]; [None] stands for [-1]. *)
Fixpoint findIndex {A : Type} (p : A → bool) (l : list A) : option nat :=
  match l with
  | [] => None
  | x :: l' => if p x then Some 0 else S <$> findIndex p l'
  end.

(** The predicate [tuple => tuple[0] === callback && tuple[1] === context]. *)
Definition same_entry (callback context : value) (tuple : entry) : bool :=
  strict_eq tuple.1 callback && strict_eq tuple.2 context.

(** ** Listener bodies

    What a listener does to the instance it is subscribed on. *)

Inductive action : Type :=
  | Aon (eventName : string) (callback context : value)
  | Aoff (eventName : string) (callback context : value)
  | Aemit (eventName : string) (data : value)
  | Athrow (e : exn).

Definition script : Type := list action.

(** A listener that leaves the instance alone: it calls none of [on],
    [off], [emit] on it and does not throw. *)
Definition quiet (body : nat → script) (t : entry) : Prop :=
  ∃ f, t.1 = VFun f ∧ body f = [].

(** A listener body that only subscribes functions and unsubscribes. *)
Definition mutating (a : action) : Prop :=
  match a with
  | Aon _ callback _ => is_function callback = true
  | Aoff _ _ _ => True
  | Aemit _ _ | Athrow _ => False
  end.

Definition mutator (body : nat → script) (t : entry) : Prop :=
  ∃ f, t.1 = VFun f ∧ Forall mutating (body f).

(** A listener body that only subscribes functions. *)
Definition subscribing (a : action) : Prop :=
  match a with
  | Aon _ callback _ => is_function callback = true
  | Aoff _ _ _ | Aemit _ _ | Athrow _ => False
  end.

Definition subscriber (body : nat → script) (t : entry) : Prop :=
  ∃ f, t.1 = VFun f ∧ Forall subscribing (body f).

Section Interp.
Context {St : Type}.
(** The three methods of the instance, and the observer of calls. *)
Variable on_ : string → value → value → St → completion * St.
Variable off_ : string → value → value → St → St.
Variable emit_ :
  (value → value → value → St → completion * St) →
  string → value → St → completion * St.
Variable record_ : invocation → St → St.
(** The body of each function object. *)
Variable body : nat → script.

Definition step (call : value → value → value → St → completion * St)
    (a : action) (s : St) : completion * St :=
  match a with
  | Aon n cb ctx => on_ n cb ctx s
  | Aoff n cb ctx => (Normal, off_ n cb ctx s)
  | Aemit n d => emit_ call n d s
  | Athrow e => (Throw e, s)
  end.

Fixpoint exec (call : value → value → value → St → completion * St)
    (p : script) (s : St) : completion * St :=
  match p with
  | [] => (Normal, s)
  | a :: p' =>
      match step call a s with
      | (Normal, s') => exec call p' s'
      | r => r
      end
  end.

(** [callback.call(context, data)] with [depth] stack frames left. *)
Fixpoint invoke (depth : nat) (callback context data : value) (s : St)
    : completion * St :=
  match callback with
  | VFun f =>
      match depth with
      | 0 => (Overflow, s)
      | S d =>
          exec (invoke d) (body f) (record_ (Invoked callback context data) s)
      end
  | _ => (Throw (TypeError "callback.call is not a function"), s)
  end.

(** A program run against the instance from the outside. *)
Definition run (depth : nat) (p : script) (s : St) : completion * St :=
  exec (invoke depth) p s.

End Interp.

(** ** The array-based mixin (Eventful.ts lines 45-159) *)

Module Eventful.

(** Arrays are objects: the event map holds references into [arrays], and
    a running [emit] keeps its reference while listeners mutate the array
    or drop it from the map. *)
Record state : Type := State {
  eventMap : option (gmap string nat);   (* [#eventMap], [None] is [null] *)
  arrays : gmap nat (list entry);        (* the array objects *)
  fresh : nat;                           (* next unused reference *)
  trace : list invocation                (* listener invocations so far *)
}.

(** A new instance: [#eventMap = null]. *)
Definition init : state := State None ∅ 0 [].

(** The contents of the array behind a reference. *)
Definition array (s : state) (a : nat) : list entry :=
  default [] (arrays s !! a).

Definition record (i : invocation) (s : state) : state :=
  State (eventMap s) (arrays s) (fresh s) (trace s ++ [i]).

(** [on(eventName, callback, context)], lines 62-76. *)
Definition on (eventName : string) (callback context : value) (s : state)
    : completion * state :=
  if negb (is_function callback) then
    (Throw (Error "Expected a function in callback argument of Eventful#on."), s)
  else
    let m := match eventMap s with Some m => m | None => ∅ end in
    match m !! eventName with
    | Some a =>
        (Normal,
         State (Some m)
               (<[a := array s a ++ [(callback, context)]]> (arrays s))
               (fresh s) (trace s))
    | None =>
        let a := fresh s in
        (Normal,
         State (Some (<[eventName := a]> m))
               (<[a := [(callback, context)]]> (arrays s))
               (S a) (trace s))
    end.

(** [off(eventName, callback, context)], lines 87-105. *)
Definition off (eventName : string) (callback context : value) (s : state)
    : state :=
  match eventMap s with
  | None => s
  | Some m =>
      match m !! eventName with
      | None => s
      | Some a =>
          match findIndex (same_entry callback context) (array s a) with
          | None => s
          | Some index =>
              let callbacks := delete index (array s a) in
              let m' :=
                if bool_decide (length callbacks = 0)
                then delete eventName m else m in
              State (if bool_decide (size m' = 0) then None else Some m')
                    (<[a := callbacks]> (arrays s))
                    (fresh s) (trace s)
          end
      end
  end.

(** The loop of [emit], lines 135-140: [i] runs up to the length read
    before the first iteration; [remaining] is [len - i]. *)
Fixpoint emit_loop (call : value → value → value → state → completion * state)
    (a : nat) (data : value) (remaining i : nat) (s : state)
    : completion * state :=
  match remaining with
  | 0 => (Normal, s)
  | S r =>
      match array s a !! i with
      | None =>
          (Throw (TypeError "Cannot read properties of undefined (reading '0')"), s)
      | Some (callback, context) =>
          match call callback context data s with
          | (Normal, s') => emit_loop call a data r (S i) s'
          | res => res
          end
      end
  end.

(** [emit(eventName, data)], lines 122-141. *)
Definition emit (call : value → value → value → state → completion * state)
    (eventName : string) (data : value) (s : state) : completion * state :=
  match eventMap s with
  | None => (Normal, s)
  | Some m =>
      match m !! eventName with
      | None => (Normal, s)
      | Some a => emit_loop call a data (length (array s a)) 0 s
      end
  end.

(** Listener calls and programs over this instance. *)
Definition call (body : nat → script) (depth : nat)
    : value → value → value → state → completion * state :=
  invoke on off emit record body depth.

Definition run_program (body : nat → script) (depth : nat) (p : script)
    (s : state) : completion * state :=
  run on off emit record body depth p s.

(** The entries subscribed to an event name, in insertion order. *)
Definition subscribed (eventName : string) (s : state) : list entry :=
  match eventMap s with
  | None => []
  | Some m =>
      match m !! eventName with
      | None => []
      | Some a => array s a
      end
  end.

(** The instance after further listener invocations were observed. *)
Definition observe (t : list invocation) (s : state) : state :=
  State (eventMap s) (arrays s) (fresh s) (trace s ++ t).

(** The event names that currently are keys of the map. *)
Definition keys (s : state) : gmap string nat := default ∅ (eventMap s).

(** Well-formed instances: every key of the map refers to an allocated,
    non-empty array of entries whose callbacks are functions, no array is
    shared by two keys, and an existing map is not empty. *)
Definition wf (s : state) : Prop :=
  eventMap s ≠ Some ∅ ∧
  (∀ n a, keys s !! n = Some a →
     a < fresh s ∧ array s a ≠ [] ∧
     Forall (λ t : entry, is_function t.1 = true) (array s a)) ∧
  (∀ n1 n2 a, keys s !! n1 = Some a → keys s !! n2 = Some a → n1 = n2).

End Eventful.

(** ** The set-based mixin (Eventful.ts lines 615-717) *)

Module EventfulSet.

(** A tuple [[callback, context]] is an object of its own: the set holds
    tuples by identity, so two subscriptions of one pair are two members.
    A JavaScript [Set] iterates in insertion order, hence a list.  No
    reference to a set outlives a call except through the map ([emit]
    copies the set before the first listener runs), so sets are stored in
    the map by value. *)
Record tuple : Type := Tuple {
  tuple_id : nat;
  tuple_entry : entry
}.

#[global] Instance tuple_eq_dec : EqDecision tuple.
Proof. solve_decision. Defined.

Record state : Type := State {
  eventMap : option (gmap string (list tuple));
  fresh : nat;
  trace : list invocation
}.

Definition init : state := State None 0 [].

Definition record (i : invocation) (s : state) : state :=
  State (eventMap s) (fresh s) (trace s ++ [i]).

(** [Set.prototype.add] of a member not yet present. *)
Definition set_add (t : tuple) (members : list tuple) : list tuple :=
  if bool_decide (t ∈ members) then members else members ++ [t].

(** [Set.prototype.delete]. *)
Definition set_delete (t : tuple) (members : list tuple) : list tuple :=
  filter (λ u, u ≠ t) members.

(** [on(eventName, callback, context)], lines 637-650. *)
Definition on (eventName : string) (callback context : value) (s : state)
    : completion * state :=
  if negb (is_function callback) then
    (Throw (Error "Expected a function in callback argument of Eventful#on."), s)
  else
    let m := match eventMap s with Some m => m | None => ∅ end in
    let callbacks := default [] (m !! eventName) in
    (Normal,
     State (Some (<[eventName :=
                      set_add (Tuple (fresh s) (callback, context)) callbacks]> m))
           (S (fresh s)) (trace s)).

(** [off(eventName, callback, context)], lines 661-679. *)
Definition off (eventName : string) (callback context : value) (s : state)
    : state :=
  match eventMap s with
  | None => s
  | Some m =>
      match m !! eventName with
      | None => s
      | Some callbacks =>
          match
            find (λ t, same_entry callback context (tuple_entry t)) callbacks
          with
          | None => s
          | Some t =>
              let callbacks' := set_delete t callbacks in
              let m' :=
                if bool_decide (length callbacks' = 0)
                then delete eventName m
                else <[eventName := callbacks']> m in
              State (if bool_decide (size m' = 0) then None else Some m')
                    (fresh s) (trace s)
          end
      end
  end.

(** [for (const [callback, context] of snapshot) callback.call(context, data)] *)
Fixpoint for_of (call : value → value → value → state → completion * state)
    (data : value) (snapshot : list tuple) (s : state) : completion * state :=
  match snapshot with
  | [] => (Normal, s)
  | t :: rest =>
      match call (tuple_entry t).1 (tuple_entry t).2 data s with
      | (Normal, s') => for_of call data rest s'
      | res => res
      end
  end.

(** [emit(eventName, data)], lines 696-706; the snapshot is [new Set(callbacks)]. *)
Definition emit (call : value → value → value → state → completion * state)
    (eventName : string) (data : value) (s : state) : completion * state :=
  match eventMap s with
  | None => (Normal, s)
  | Some m =>
      match m !! eventName with
      | None => (Normal, s)
      | Some callbacks => for_of call data callbacks s
      end
  end.

Definition call (body : nat → script) (depth : nat)
    : value → value → value → state → completion * state :=
  invoke on off emit record body depth.

Definition run_program (body : nat → script) (depth : nat) (p : script)
    (s : state) : completion * state :=
  run on off emit record body depth p s.

Definition subscribed (eventName : string) (s : state) : list entry :=
  match eventMap s with
  | None => []
  | Some m => tuple_entry <$> default [] (m !! eventName)
  end.

(** The event names that currently are keys of the map. *)
Definition keys (s : state) : gmap string (list tuple) :=
  default ∅ (eventMap s).

(** Well-formed instances: an existing map is not empty, and every set
    in it is non-empty, has no member twice, and holds tuples that were
    allocated before and whose callbacks are functions. *)
Definition wf (s : state) : Prop :=
  eventMap s ≠ Some ∅ ∧
  ∀ n members, keys s !! n = Some members →
    members ≠ [] ∧ NoDup members ∧
    Forall (λ t, tuple_id t < fresh s ∧
                 is_function (tuple_entry t).1 = true) members.

End EventfulSet.

(** ** Objects, classes and the [instanceof Eventful] test
    (Eventful.ts lines 45-49 and 143-159) *)

Module Instance.

(** Property keys are strings or symbols. *)
Inductive key : Type :=
  | KStr (s : string)
  | KSym (id : nat).

#[global] Instance key_eq_dec : EqDecision key.
Proof. solve_decision. Defined.

#[global] Program Instance key_countable : Countable key :=
  inj_countable'
    (λ k, match k with KStr s => inl s | KSym n => inr n end)
    (λ x, match x with inl s => KStr s | inr n => KSym n end) _.
Next Obligation. by intros []. Qed.

(** The own data properties of one object. *)
Abbreviation table := (gmap key value).

(** An object: its own properties and the tables of its prototype chain,
    nearest first. *)
Record object : Type := Object {
  own : table;
  prototypes : list table
}.

(** [const isEventful = Symbol('isEventful')]: private to the module. *)
Definition isEventful_id : nat := 0.
Definition isEventful : value := VSym isEventful_id.
Definition isEventful_key : key := KSym isEventful_id.

(** Property lookup along a prototype chain. *)
Fixpoint chain_get (k : key) (chain : list table) : value :=
  match chain with
  | [] => VUndefined
  | t :: rest =>
      match t !! k with
      | Some v => v
      | None => chain_get k rest
      end
  end.

(** What [instanceof] is applied to: an object, or a primitive whose
    property reads go through the chain of its wrapper prototype. *)
Inductive operand : Type :=
  | OObj (o : object)
  | OPrim (v : value) (wrapper : list table).

(** ToBoolean of an operand; objects are truthy. *)
Definition to_boolean (x : operand) : bool :=
  match x with
  | OObj _ => true
  | OPrim v _ => truthy v
  end.

(** [obj[k]] *)
Definition get (x : operand) (k : key) : value :=
  match x with
  | OObj o => chain_get k (own o :: prototypes o)
  | OPrim _ wrapper => chain_get k wrapper
  end.

(** [Eventful[Symbol.hasInstance]], lines 153-159. *)
Definition hasInstance (obj : operand) : bool :=
  if negb (to_boolean obj) then false
  else if truthy (get obj isEventful_key) then true
  else false.

(** Classes: a class that does not come from this module, the mixin
    applied to a base, or a class declared with [extends]. *)
Inductive class : Type :=
  | Native (protos : list table) (construct : list value → table)
  | Mixin (Base : class)
  | Subclass (Parent : class) (methods : table) (fields : list value → table).

(** The methods of the class that [Eventful(Base)] returns; line 146 puts
    the marker on the prototype as well. *)
Definition eventful_prototype : table :=
  <[isEventful_key := isEventful]>
    (<[KStr "on" := VFun 0]>
       (<[KStr "off" := VFun 1]> (<[KStr "emit" := VFun 2]> ∅))).

(** [C.prototype] and what lies behind it, nearest first. *)
Fixpoint prototype_chain (c : class) : list table :=
  match c with
  | Native protos _ => protos
  | Mixin Base => eventful_prototype :: prototype_chain Base
  | Subclass Parent methods _ => methods :: prototype_chain Parent
  end.

(** The own properties of [new C(...args)]: the base constructor runs
    first, then each class assigns its fields; line 48 is the field
    [[isEventful] = isEventful]. *)
Fixpoint construct_own (c : class) (args : list value) : table :=
  match c with
  | Native _ construct => construct args
  | Mixin Base => <[isEventful_key := isEventful]> (construct_own Base args)
  | Subclass Parent _ fields => fields args ∪ construct_own Parent args
  end.

(** [new C(...args)] *)
Definition new (c : class) (args : list value) : object :=
  Object (construct_own c args) (prototype_chain c).

(** [C.prototype] as an object. *)
Definition prototype_of (c : class) : object :=
  match prototype_chain c with
  | [] => Object ∅ []
  | t :: rest => Object t rest
  end.

(** Whether the mixin was applied somewhere in the class's ancestry. *)
Fixpoint composed (c : class) : bool :=
  match c with
  | Native _ _ => false
  | Mixin _ => true
  | Subclass Parent _ _ => composed Parent
  end.

(** Code outside the module cannot name the private symbol: none of the
    tables it writes has the marker as a key. *)
Definition unaware (t : table) : Prop := t !! isEventful_key = None.

Fixpoint outside (c : class) : Prop :=
  match c with
  | Native protos construct =>
      Forall unaware protos ∧ ∀ args, unaware (construct args)
  | Mixin Base => outside Base
  | Subclass Parent methods fields =>
      unaware methods ∧ (∀ args, unaware (fields args)) ∧ outside Parent
  end.

End Instance.

(** ** The [@emits] decorator (emits.ts) *)

Module Emits.

Section Decorator.
(** [U] is whatever else an instance holds: the state that the code of
    its class reads and writes. *)
Context {U : Type}.

(** A deferred [emitEvent.bind(this)]: which instance, and the arguments
    of its [this.emit(eventName, propName)]. *)
Record job : Type := Job {
  job_this : nat;
  job_event : string;
  job_payload : value
}.

(** What all instances of the decorated class share: the closure
    variable [initialValueIsSet] of the [_emits] call (line 82) and the
    host's microtask queue. *)
Record shared : Type := Shared {
  initialValueIsSet : bool;
  microtasks : list job
}.

(** One instance: its identity, its registry, the hidden slot
    [this[vName]] ([None] while the property is absent) and the rest of
    its state. *)
Record instance : Type := Inst {
  self : nat;
  registry : Eventful.state;
  vName : option value;
  fields : U
}.

(** The original accessors of a decorated property are methods of the
    class, called with [this]: a getter may do anything to the instance
    and to what is shared (subscribe, emit, assign other properties and
    so schedule jobs) and may throw, and so may a setter. *)
Definition getter : Type :=
  instance → shared → completion * value * instance * shared.

Definition setter : Type :=
  value → instance → shared → completion * instance * shared.

(** A property descriptor as [_emits] looks at it; an absent [writable]
    is [false]. *)
Record PropertyDescriptor : Type := Descriptor {
  d_get : option getter;
  d_set : option setter;
  d_value : value;
  d_writable : bool
}.

(** The accessor pair that [_emits] builds (lines 87-125): either it
    forwards to the original accessors, or it is backed by the hidden
    slot [this[vName]]. *)
Inductive accessors : Type :=
  | Forwarding (originalGet : option getter) (originalSet : setter)
  | Backed (initialValue : value).

(** How a call of [_emits] ends. *)
Inductive decoration : Type :=
  | Rejected (e : exn)
  | Declined (warning : string)
  | Installed (a : accessors) (calledAsPropertyDecorator : bool).

(** [_emits(prototype, propName, descriptor, eventName)], lines 24-135.
    [ownDescriptor] is what [Object.getOwnPropertyDescriptor(prototype,
    propName)] returns. *)
Definition _emits (prototype : Instance.object) (propName : string)
    (descriptor ownDescriptor : option PropertyDescriptor)
    (eventName : string) : decoration :=
  if negb (Instance.hasInstance (Instance.OObj prototype)) then
    Rejected (TypeError
      "The @emits decorator is only for use on properties of classes that extend from Eventful.")
  else
    let calledAsPropertyDecorator :=
      match descriptor with Some _ => false | None => true end in
    let descriptor :=
      match descriptor with Some d => Some d | None => ownDescriptor end in
    match descriptor with
    | Some d =>
        match d_get d, d_set d with
        | None, None =>
            if negb (d_writable d) then
              Declined ("The `@emits` decorator was used on a property named " +:+ propName)
            else Installed (Backed (d_value d)) calledAsPropertyDecorator
        | _, None =>
            Declined ("The `@emits` decorator was used on an accessor named " +:+ propName)
        | originalGet, Some originalSet =>
            Installed (Forwarding originalGet originalSet)
                      calledAsPropertyDecorator
        end
    | None => Installed (Backed VUndefined) calledAsPropertyDecorator
    end.

(** [Promise.resolve().then(emitEvent.bind(this))] *)
Definition schedule (eventName propName : string) (this : instance)
    (w : shared) : shared :=
  Shared (initialValueIsSet w)
         (microtasks w ++ [Job (self this) eventName (VStr propName)]).

(** Reading the decorated property: the [get] of lines 93-95, which
    returns what [originalGet.call(this)] returns, or that of lines
    99-106; a forwarding pair without an original getter has no [get],
    so the read gives [undefined]. *)
Definition get (a : accessors) (this : instance) (w : shared)
    : completion * value * instance * shared :=
  match a with
  | Forwarding (Some originalGet) _ => originalGet this w
  | Forwarding None _ => (Normal, VUndefined, this, w)
  | Backed initialValue =>
      if negb (initialValueIsSet w) then
        (Normal, initialValue,
         Inst (self this) (registry this) (Some initialValue) (fields this),
         Shared true (microtasks w))
      else (Normal, default VUndefined (vName this), this, w)
  end.

(** Writing the decorated property: the [set] of lines 110-116, which
    calls [originalSet.call(this, newValue)] and, when that returns,
    schedules the job bound to [this]; or the [set] of lines 119-123. *)
Definition set (eventName propName : string) (a : accessors)
    (newValue : value) (this : instance) (w : shared)
    : completion * instance * shared :=
  match a with
  | Forwarding _ originalSet =>
      match originalSet newValue this w with
      | (Normal, this', w') =>
          (Normal, this', schedule eventName propName this w')
      | r => r
      end
  | Backed _ =>
      let w' :=
        if negb (initialValueIsSet w) then Shared true (microtasks w) else w in
      let this' :=
        Inst (self this) (registry this) (Some newValue) (fields this) in
      (Normal, this', schedule eventName propName this' w')
  end.

(** Running one deferred [emitEvent] on the instance it is bound to:
    [this.emit(eventName, propName)], lines 83-85. *)
Definition emitEvent (body : nat → script) (depth : nat) (j : job)
    (this : instance) : completion * instance :=
  let r := Eventful.emit (Eventful.call body depth)
             (job_event j) (job_payload j) (registry this) in
  (r.1, Inst (self this) r.2 (vName this) (fields this)).

(** A run of assignments [this.prop = v] for the values in order; the
    first one that does not complete ends the run. *)
Fixpoint assign_all (eventName propName : string) (a : accessors)
    (values : list value) (this : instance) (w : shared)
    : completion * instance * shared :=
  match values with
  | [] => (Normal, this, w)
  | v :: rest =>
      match set eventName propName a v this w with
      | (Normal, this', w') => assign_all eventName propName a rest this' w'
      | r => r
      end
  end.

(** The host running pending jobs, oldest first, on the instance they
    are bound to.  A job that throws is a rejected promise: the jobs
    behind it still run. *)
Fixpoint drain (body : nat → script) (depth : nat) (jobs : list job)
    (this : instance) : instance :=
  match jobs with
  | [] => this
  | j :: rest =>
      if bool_decide (job_this j = self this)
      then drain body depth rest (emitEvent body depth j this).2
      else drain body depth rest this
  end.

(** The descriptor [_emits] works on: the one it was passed, else the
    one found on the prototype. *)
Definition resolved (descriptor ownDescriptor : option PropertyDescriptor)
    : option PropertyDescriptor :=
  match descriptor with Some d => Some d | None => ownDescriptor end.

(** A property that cannot be written: an accessor without a setter, or
    a data property that is not writable. *)
Definition read_only (d : PropertyDescriptor) : Prop :=
  d_set d = None ∧ (is_Some (d_get d) ∨ d_writable d = false).

End Decorator.

Arguments job : clear implicits.
Arguments shared : clear implicits.
Arguments getter : clear implicits.
Arguments setter : clear implicits.
Arguments PropertyDescriptor : clear implicits.
Arguments accessors : clear implicits.
Arguments decoration : clear implicits.
Arguments instance : clear implicits.

End Emits.

(** ** Listener behaviours used in the examples *)

Module Scenario.

(** No listener touches the instance. *)
Definition silent : nat → script := λ _, [].

(** Listener 1 unsubscribes itself from [x]; the others are quiet. *)
Definition self_unsubscribing : nat → script := λ f,
  match f with
  | 1 => [Aoff "x" (VFun 1) VUndefined]
  | _ => []
  end.

(** Listener 3 unsubscribes itself from [x] and subscribes listener 5
    to [x]; the others are quiet. *)
Definition replacing : nat → script := λ f,
  match f with
  | 3 => [Aoff "x" (VFun 3) VUndefined; Aon "x" (VFun 5) VUndefined]
  | _ => []
  end.

(** Listener 1 throws; the others are quiet. *)
Definition throwing : nat → script := λ f,
  match f with
  | 1 => [Athrow (Error "boom")]
  | _ => []
  end.

(** Listener 1 subscribes listener 5 to [x]; the others are quiet. *)
Definition adding : nat → script := λ f,
  match f with
  | 1 => [Aon "x" (VFun 5) VUndefined]
  | _ => []
  end.

(** Listener 1 emits [y]; the others are quiet. *)
Definition relaying : nat → script := λ f,
  match f with
  | 1 => [Aemit "y" (VNum 8)]
  | _ => []
  end.

(** The classes of the instance-check test (Eventful.test.js lines
    129-153): [Eventful()], [class OtherClass extends Eventful()] and
    [class AnotherClass extends Eventful(Array)]. *)
Definition object_prototype : Instance.table :=
  {[Instance.KStr "toString" := VFun 100]}.

Definition array_prototype : Instance.table :=
  {[Instance.KStr "push" := VFun 101]}.

Definition ObjectClass : Instance.class :=
  Instance.Native [object_prototype] (λ _, ∅).

Definition ArrayClass : Instance.class :=
  Instance.Native [array_prototype; object_prototype]
    (λ _, {[Instance.KStr "length" := VNum 0]}).

Definition MyClass : Instance.class := Instance.Mixin ObjectClass.

Definition OtherClass : Instance.class :=
  Instance.Subclass (Instance.Mixin ObjectClass) ∅ (λ _, ∅).

Definition AnotherClass : Instance.class :=
  Instance.Subclass (Instance.Mixin ArrayClass) ∅ (λ _, ∅).

(** A plain object [{on, off, emit}] that does not come from the mixin. *)
Definition lookalike : Instance.object :=
  Instance.Object
    (<[Instance.KStr "on" := VFun 7]>
       (<[Instance.KStr "off" := VFun 8]>
          {[Instance.KStr "emit" := VFun 9]}))
    [object_prototype].

(** [class Foo extends Eventful() { foo = 123 }], whose [foo] is
    decorated with [@emits('change')]. *)
Definition Foo : Instance.class :=
  Instance.Subclass (Instance.Mixin ObjectClass)
    {[Instance.KStr "foo" := VNum 123]} (λ _, ∅).




End Scenario.

(** * Properties *)

(** ** Values, lists and entries *)

Lemma strict_eq_true a b : strict_eq a b = true ↔ a = b.
Proof. unfold strict_eq. by rewrite bool_decide_eq_true. Qed.

Lemma is_function_VFun v : is_function v = true ↔ ∃ f, v = VFun f.
Proof.
  unfold is_function. rewrite bool_decide_eq_true.
  destruct v; simpl; split; try discriminate; eauto; by intros [? ?].
Qed.

Lemma same_entry_true callback context t :
  same_entry callback context t = true ↔ t = (callback, context).
Proof.
  unfold same_entry. rewrite andb_true_iff, !strict_eq_true.
  destruct t as [c x]; simpl. split; [by intros [-> ->]|by intros [= -> ->]].
Qed.

Lemma same_entry_false callback context t :
  same_entry callback context t = false ↔ t ≠ (callback, context).
Proof.
  rewrite <- same_entry_true. destruct (same_entry callback context t); naive_solver.
Qed.

Lemma findIndex_None {A} (p : A → bool) (l : list A) :
  findIndex p l = None ↔ Forall (λ x, p x = false) l.
Proof.
  induction l as [|x l IH]; simpl; [by split; [constructor|]|].
  destruct (p x) eqn:Hp.
  - split; [done|]. inversion 1; congruence.
  - rewrite fmap_None, IH. split; [by constructor|by inversion 1].
Qed.

Lemma findIndex_Some {A} (p : A → bool) (l : list A) i :
  findIndex p l = Some i →
  ∃ l1 x l2, l = l1 ++ x :: l2 ∧ length l1 = i ∧ p x = true ∧
             Forall (λ y, p y = false) l1.
Proof.
  revert i. induction l as [|x l IH]; intros i; simpl; [done|].
  destruct (p x) eqn:Hp.
  - intros [= <-]. by exists [], x, l.
  - rewrite fmap_Some. intros (j & Hj & ->).
    destruct (IH _ Hj) as (l1 & y & l2 & -> & <- & Hy & Hl1).
    exists (x :: l1), y, l2. repeat split; [done|by constructor].
Qed.

Lemma findIndex_first {A} (p : A → bool) (l1 l2 : list A) x :
  Forall (λ y, p y = false) l1 → p x = true →
  findIndex p (l1 ++ x :: l2) = Some (length l1).
Proof.
  intros Hl1 Hx. induction Hl1 as [|y l1 Hy _ IH]; simpl.
  - by rewrite Hx.
  - by rewrite Hy, IH.
Qed.

Lemma delete_middle {A} (l1 l2 : list A) x :
  delete (length l1) (l1 ++ x :: l2) = l1 ++ l2.
Proof. induction l1 as [|y l1 IH]; simpl; [done|by rewrite IH]. Qed.

(** ** The array-based mixin *)

Section ArrayRegistry.
Import Eventful.

Lemma array_observe t s a : array (observe t s) a = array s a.
Proof. done. Qed.

Lemma subscribed_observe n t s : subscribed n (observe t s) = subscribed n s.
Proof. done. Qed.

Lemma observe_nil s : observe [] s = s.
Proof. destruct s. unfold observe. simpl. by rewrite app_nil_r. Qed.

Lemma observe_observe t u s : observe u (observe t s) = observe (t ++ u) s.
Proof. unfold observe. simpl. by rewrite app_assoc. Qed.

Lemma record_observe i s : record i s = observe [i] s.
Proof. done. Qed.

(** [on] with a function appends one entry and touches nothing else of
    the event's collection. *)
Lemma on_accepts n callback context s :
  is_function callback = true →
  ∃ s', on n callback context s = (Normal, s') ∧
        subscribed n s' = subscribed n s ++ [(callback, context)] ∧
        trace s' = trace s.
Proof.
  intros Hf. unfold on. rewrite Hf. simpl.
  unfold subscribed.
  destruct (eventMap s) as [m|] eqn:Hm.
  - destruct (m !! n) as [a|] eqn:Ha.
    + eexists. split; [done|]. simpl. rewrite Ha. unfold array at 1. simpl.
      by rewrite lookup_insert_eq.
    + eexists. split; [done|]. simpl. rewrite lookup_insert_eq.
      unfold array. simpl. by rewrite lookup_insert_eq.
  - rewrite lookup_empty. eexists. split; [done|]. simpl.
    rewrite lookup_insert_eq. unfold array. simpl. by rewrite lookup_insert_eq.
Qed.

(** [off] takes out the first matching entry of the event's collection. *)
Lemma off_first_match n callback context s l1 l2 :
  subscribed n s = l1 ++ (callback, context) :: l2 →
  (callback, context) ∉ l1 →
  subscribed n (off n callback context s) = l1 ++ l2 ∧
  trace (off n callback context s) = trace s.
Proof.
  unfold subscribed, off. intros Hs Hl1.
  destruct (eventMap s) as [m|] eqn:Hm; [|by destruct l1].
  destruct (m !! n) as [a|] eqn:Ha; [|by destruct l1].
  rewrite Hs, findIndex_first, delete_middle; cycle 1.
  { apply Forall_forall. intros t Ht. apply same_entry_false. by intros ->. }
  { by apply same_entry_true. }
  simpl. split; [|done].
  destruct (decide (length (l1 ++ l2) = 0)) as [Hlen|Hlen].
  - rewrite (bool_decide_eq_true_2 _ Hlen).
    apply length_zero_iff_nil in Hlen. rewrite Hlen.
    case_bool_decide; [done|]. by rewrite lookup_delete_eq.
  - rewrite (bool_decide_eq_false_2 _ Hlen).
    case_bool_decide as Hsz.
    + apply map_size_empty_iff in Hsz. by rewrite Hsz, lookup_empty in Ha.
    + rewrite Ha. unfold array. simpl. by rewrite lookup_insert_eq.
Qed.

(** Without a matching entry [off] returns the instance as it was. *)
Lemma off_no_match n callback context s :
  (callback, context) ∉ subscribed n s → off n callback context s = s.
Proof.
  unfold subscribed, off. intros Hs.
  destruct (eventMap s) as [m|]; [|done].
  destruct (m !! n) as [a|]; [|done].
  destruct (findIndex _ _) as [i|] eqn:Hi; [|done].
  apply findIndex_Some in Hi as (l1 & t & l2 & Hl & _ & Ht & _).
  apply same_entry_true in Ht. subst t. rewrite Hl in Hs.
  exfalso. apply Hs. apply elem_of_app. right. by left.
Qed.

End ArrayRegistry.

Section ArrayQuiet.
Import Eventful.
Variable body : nat → script.

(** A quiet listener returns at once; only the invocation is observed. *)
Lemma call_quiet d t data s :
  quiet body t →
  call body (S d) t.1 t.2 data s = (Normal, observe [invocation_of data t] s).
Proof.
  intros (f & Hf & Hb). destruct t as [c x]. simpl in *. subst c.
  unfold call. simpl. by rewrite Hb.
Qed.

Lemma emit_loop_quiet d a data r : ∀ i s,
  Forall (quiet body) (drop i (array s a)) →
  r = length (array s a) - i →
  emit_loop (call body (S d)) a data r i s =
  (Normal, observe (invocation_of data <$> drop i (array s a)) s).
Proof.
  induction r as [|r IH]; intros i s Hq Hr; simpl.
  - rewrite drop_ge by lia. simpl. by rewrite observe_nil.
  - destruct (array s a !! i) as [[c x]|] eqn:Hi.
    2:{ apply lookup_ge_None in Hi. exfalso. lia. }
    rewrite (drop_S _ _ _ Hi) in Hq |- *.
    inversion Hq as [|? ? Hq1 Hq2]; subst.
    pose proof (call_quiet d (c, x) data s Hq1) as Hc. simpl in Hc. rewrite Hc.
    rewrite IH; rewrite ?array_observe; [|done|lia].
    by rewrite observe_observe.
Qed.

(** With quiet listeners, [emit] invokes the subscribed entries once
    each, in insertion order. *)
Lemma emit_quiet d n data s :
  Forall (quiet body) (subscribed n s) →
  emit (call body (S d)) n data s =
  (Normal, observe (invocation_of data <$> subscribed n s) s).
Proof.
  unfold emit, subscribed. intros Hq.
  destruct (eventMap s) as [m|]; [|by rewrite observe_nil].
  destruct (m !! n) as [a|]; [|by rewrite observe_nil].
  rewrite (emit_loop_quiet d a data _ 0 s); [done|done|lia].
Qed.

End ArrayQuiet.

(** ** Invariants of programs

    A property of the instance that [on], [off] and the observer keep,
    and that [emit] keeps whenever the calls it makes do, holds after
    every program and every listener call, however they end. *)

Section Preservation.
Context {St : Type}.
Variable on_ : string → value → value → St → completion * St.
Variable off_ : string → value → value → St → St.
Variable emit_ :
  (value → value → value → St → completion * St) →
  string → value → St → completion * St.
Variable record_ : invocation → St → St.
Variable body : nat → script.
Variable P : St → Prop.
Hypothesis P_on : ∀ n cb ctx s, P s → P (on_ n cb ctx s).2.
Hypothesis P_off : ∀ n cb ctx s, P s → P (off_ n cb ctx s).
Hypothesis P_record : ∀ i s, P s → P (record_ i s).
Hypothesis P_emit : ∀ call,
  (∀ cb ctx d s, P s → P (call cb ctx d s).2) →
  ∀ n d s, P s → P (emit_ call n d s).2.

Lemma exec_preserves call :
  (∀ cb ctx d s, P s → P (call cb ctx d s).2) →
  ∀ p s, P s → P (exec on_ off_ emit_ call p s).2.
Proof.
  intros Hcall p. induction p as [|a p IH]; intros s Hs; simpl; [done|].
  assert (P (step on_ off_ emit_ call a s).2) as Hstep.
  { destruct a; simpl; auto. }
  destruct (step on_ off_ emit_ call a s) as [[] s']; simpl in *; auto.
Qed.

Lemma invoke_preserves depth : ∀ cb ctx d s,
  P s → P (invoke on_ off_ emit_ record_ body depth cb ctx d s).2.
Proof.
  induction depth as [|depth IH]; intros cb ctx d s Hs;
    destruct cb; simpl; try done.
  apply exec_preserves; auto.
Qed.

Lemma run_preserves depth p s :
  P s → P (run on_ off_ emit_ record_ body depth p s).2.
Proof. apply exec_preserves, invoke_preserves. Qed.

End Preservation.

Section ArrayInvariant.
Import Eventful.

Lemma wf_init : wf init.
Proof.
  unfold wf, keys. simpl. split; [done|].
  split; intros *; by rewrite lookup_empty.
Qed.

Lemma wf_record i s : wf s → wf (record i s).
Proof. done. Qed.

Lemma keys_Some s m : eventMap s = Some m → keys s = m.
Proof. unfold keys. by intros ->. Qed.

Lemma keys_None s : eventMap s = None → keys s = ∅.
Proof. unfold keys. by intros ->. Qed.

Lemma wf_on n callback context s : wf s → wf (on n callback context s).2.
Proof.
  intros (Hne & Harr & Hinj). unfold on.
  destruct (is_function callback) eqn:Hf; simpl; [|done].
  assert (keys s = match eventMap s with Some m => m | None => ∅ end) as Hk
    by (unfold keys; by destruct (eventMap s)).
  rewrite <- Hk. clear Hk. set (m := keys s) in *.
  destruct (m !! n) as [a|] eqn:Ha; unfold wf, keys; simpl.
  - split.
    { intros [= Hm]. by rewrite Hm, lookup_empty in Ha. }
    split; [|done].
    intros n' a' Hn'. destruct (Harr _ _ Hn') as (Hlt & Hnil & Hfun).
    split; [done|]. unfold array in *. simpl.
    destruct (decide (a = a')) as [->|Hne'].
    + rewrite lookup_insert_eq. simpl. split; [by destruct (default _ _)|].
      apply Forall_app. split; [done|]. by repeat constructor.
    + by rewrite lookup_insert_ne.
  - split.
    { intros [= Hm]. by apply insert_non_empty in Hm. }
    split.
    + intros n' a'. rewrite lookup_insert_Some.
      intros [[<- <-]|[Hnn Hn']]; unfold array in *; simpl.
      * rewrite lookup_insert_eq. simpl.
        split; [lia|]. split; [done|]. by repeat constructor.
      * destruct (Harr _ _ Hn') as (Hlt & Hnil & Hfun).
        rewrite lookup_insert_ne by lia. split; [lia|done].
    + intros n1 n2 a. rewrite !lookup_insert_Some.
      intros [[<- <-]|[Hn1 H1]] [[<- Heq]|[Hn2 H2]]; try done.
      * destruct (Harr _ _ H2). lia.
      * subst a. destruct (Harr _ _ H1). lia.
      * eauto.
Qed.

Lemma wf_off n callback context s : wf s → wf (off n callback context s).
Proof.
  intros Hwf. pose proof Hwf as (Hne & Harr & Hinj). unfold off.
  destruct (eventMap s) as [m|] eqn:Hm; [|done].
  destruct (m !! n) as [a|] eqn:Ha; [|done].
  destruct (findIndex _ _) as [index|] eqn:Hi; [|done].
  rewrite (keys_Some _ _ Hm) in Harr, Hinj.
  set (callbacks := delete index (array s a)).
  set (m' := if bool_decide (length callbacks = 0) then delete n m else m).
  assert (∀ n' a', m' !! n' = Some a' →
            m !! n' = Some a' ∧ (a' = a → callbacks ≠ [])) as Hsub.
  { intros n' a'. unfold m'. case_bool_decide as Hlen.
    - rewrite lookup_delete_Some. intros [Hnn Hn']. split; [done|].
      intros ->. by destruct Hnn; eauto.
    - intros Hn'. split; [done|]. intros _ Hnil. by rewrite Hnil in Hlen. }
  assert (keys (State (if bool_decide (size m' = 0) then None else Some m')
                      (<[a:=callbacks]> (arrays s)) (fresh s) (trace s)) = m')
    as Hk.
  { unfold keys. simpl. case_bool_decide as Hsz; [|done].
    by apply map_size_empty_iff in Hsz. }
  unfold wf. rewrite Hk. simpl. split.
  { case_bool_decide as Hsz; [done|].
    intros [= Hm']. by rewrite Hm', map_size_empty in Hsz. }
  split.
  - intros n' a' Hn'. destruct (Hsub _ _ Hn') as [Hn'm Hnil].
    destruct (Harr _ _ Hn'm) as (Hlt & Hnil' & Hfun).
    split; [done|]. unfold array in *. simpl.
    destruct (decide (a = a')) as [<-|Hne'].
    + rewrite lookup_insert_eq. simpl. split; [by apply Hnil|].
      by apply Forall_delete.
    + by rewrite lookup_insert_ne.
  - intros n1 n2 a' H1 H2.
    destruct (Hsub _ _ H1), (Hsub _ _ H2). eauto.
Qed.

Lemma wf_emit_loop call :
  (∀ cb ctx d s, wf s → wf (call cb ctx d s).2) →
  ∀ a data r i s, wf s → wf (emit_loop call a data r i s).2.
Proof.
  intros Hcall a data r. induction r as [|r IH]; intros i s Hs; simpl; [done|].
  destruct (array s a !! i) as [[c x]|]; [|done].
  specialize (Hcall c x data s Hs).
  destruct (call c x data s) as [[] s']; simpl in *; auto.
Qed.

Lemma wf_emit call :
  (∀ cb ctx d s, wf s → wf (call cb ctx d s).2) →
  ∀ n data s, wf s → wf (emit call n data s).2.
Proof.
  intros Hcall n data s Hs. unfold emit.
  destruct (eventMap s) as [m|]; [|done].
  destruct (m !! n); [|done]. by apply wf_emit_loop.
Qed.

(** Every program keeps the instance well-formed. *)
Lemma wf_run body depth p s : wf s → wf (run_program body depth p s).2.
Proof.
  apply run_preserves; auto using wf_on, wf_off, wf_record, wf_emit.
Qed.

Lemma wf_subscribed_functions n s :
  wf s → Forall (λ t : entry, is_function t.1 = true) (subscribed n s).
Proof.
  intros (_ & Harr & _). unfold subscribed.
  destruct (eventMap s) as [m|] eqn:Hm; [|done].
  destruct (m !! n) as [a|] eqn:Ha; [|done].
  rewrite (keys_Some _ _ Hm) in Harr. by destruct (Harr _ _ Ha) as (_ & _ & ?).
Qed.

(** [off] leaves the collections of other event names as they were. *)
Lemma off_other n n' callback context s :
  wf s → n' ≠ n →
  subscribed n' (off n callback context s) = subscribed n' s.
Proof.
  intros (Hne & Harr & Hinj) Hnn. unfold off.
  destruct (eventMap s) as [m|] eqn:Hm; [|done].
  destruct (m !! n) as [a|] eqn:Ha; [|done].
  destruct (findIndex _ _) as [index|] eqn:Hi; [|done].
  rewrite (keys_Some _ _ Hm) in Harr, Hinj.
  unfold subscribed at 2. rewrite Hm.
  set (m' := if bool_decide (_ = 0) then delete n m else m).
  assert (m' !! n' = m !! n') as Hm'.
  { unfold m'. case_bool_decide; [by rewrite lookup_delete_ne|done]. }
  unfold subscribed. simpl. case_bool_decide as Hsz.
  - apply map_size_empty_iff in Hsz.
    by rewrite <- Hm', Hsz, lookup_empty.
  - rewrite Hm'. destruct (m !! n') as [a'|] eqn:Ha'; [|done].
    unfold array. simpl. rewrite lookup_insert_ne; [done|].
    intros ->. apply Hnn. eauto.
Qed.

End ArrayInvariant.

(** ** Programs over the array-based mixin *)

Section ArrayPrograms.
Import Eventful.

Lemma exec_app {St : Type}
    (on_ : string → value → value → St → completion * St) off_ emit_
    call p q s :
  exec on_ off_ emit_ call (p ++ q) s =
  match exec on_ off_ emit_ call p s with
  | (Normal, s') => exec on_ off_ emit_ call q s'
  | r => r
  end.
Proof.
  revert s. induction p as [|a p IH]; intros s; simpl; [done|].
  destruct (step on_ off_ emit_ call a s) as [[]]; [apply IH|done..].
Qed.

(** A run of [on] calls with functions appends their entries in order. *)
Lemma exec_subscriptions call n (subs : list entry) : ∀ s,
  Forall (λ t : entry, is_function t.1 = true) subs →
  ∃ s', exec on off emit call ((λ t : entry, Aon n t.1 t.2) <$> subs) s
          = (Normal, s') ∧
        subscribed n s' = subscribed n s ++ subs ∧
        trace s' = trace s.
Proof.
  induction subs as [|t subs IH]; intros s Hf; simpl.
  - exists s. by rewrite app_nil_r.
  - inversion Hf as [|? ? Ht Hsubs]; subst.
    destruct (on_accepts n t.1 t.2 s Ht) as (s1 & -> & Hs1 & Ht1).
    destruct (IH s1 Hsubs) as (s2 & Hexec & Hs2 & Ht2).
    exists s2. split; [exact Hexec|]. rewrite Hs2, Hs1, Ht2, Ht1.
    destruct t. simpl. by rewrite <- app_assoc.
Qed.

Lemma quiet_function body t : quiet body t → is_function t.1 = true.
Proof. intros (f & -> & _). done. Qed.

End ArrayPrograms.

(** C9: [on] with a callback that is not a function throws at once and
    leaves the instance exactly as it was; the event map is neither
    created nor changed. *)
Theorem on_rejects_non_function
    (eventName : string) (callback context : value) (s : Eventful.state) :
  typeof callback ≠ "function" →
  Eventful.on eventName callback context s =
  (Throw (Error "Expected a function in callback argument of Eventful#on."), s).
Proof.
  intros Ht. unfold Eventful.on, is_function.
  by rewrite bool_decide_eq_false_2.
Qed.

Lemma on_rejects_non_function_witness :
  Eventful.on "x" (VStr "handler") VUndefined Eventful.init =
  (Throw (Error "Expected a function in callback argument of Eventful#on."),
   Eventful.init).
Proof.
  apply (on_rejects_non_function "x" (VStr "handler") VUndefined Eventful.init).
  vm_compute. discriminate.
Defined.

(** C6: [off] removes at most one entry, the first one in insertion
    order whose callback and context are the given ones; without an event
    map, without a collection for the event name or without a matching
    entry it returns the instance unchanged; it never touches the
    collections of other event names; and once the pair is gone a
    second identical call changes nothing.  [off] has no throwing path:
    it is a total function on instances. *)
Theorem off_removes_first_match
    (eventName : string) (callback context : value) (s : Eventful.state) :
  Eventful.wf s →
  let s' := Eventful.off eventName callback context s in
  (∀ l1 l2,
     Eventful.subscribed eventName s = l1 ++ (callback, context) :: l2 →
     (callback, context) ∉ l1 →
     Eventful.subscribed eventName s' = l1 ++ l2 ∧
     ((callback, context) ∉ l2 →
      Eventful.off eventName callback context s' = s')) ∧
  (Eventful.eventMap s = None → s' = s) ∧
  (Eventful.keys s !! eventName = None → s' = s) ∧
  ((callback, context) ∉ Eventful.subscribed eventName s →
   s' = s ∧ Eventful.off eventName callback context s' = s') ∧
  (∀ other, other ≠ eventName →
     Eventful.subscribed other s' = Eventful.subscribed other s) ∧
  (length (Eventful.subscribed eventName s)
     ≤ S (length (Eventful.subscribed eventName s')))%nat ∧
  Eventful.trace s' = Eventful.trace s.
Proof.
  intros Hwf s'. subst s'.
  assert (∀ l1 l2,
     Eventful.subscribed eventName s = l1 ++ (callback, context) :: l2 →
     (callback, context) ∉ l1 →
     Eventful.subscribed eventName
       (Eventful.off eventName callback context s) = l1 ++ l2) as Hfirst.
  { intros l1 l2 Hs Hl1. by apply off_first_match. }
  split; [|split; [|split; [|split; [|split; [|split]]]]].
  - intros l1 l2 Hs Hl1. split; [by apply Hfirst|].
    intros Hl2. apply off_no_match. rewrite (Hfirst _ _ Hs Hl1).
    by apply not_elem_of_app.
  - unfold Eventful.off. by intros ->.
  - unfold Eventful.off, Eventful.keys.
    destruct (Eventful.eventMap s); simpl; [by intros ->|done].
  - intros Hno. rewrite (off_no_match _ _ _ _ Hno).
    split; [done|by apply off_no_match].
  - intros other Hother. by apply off_other.
  - destruct (decide ((callback, context) ∈ Eventful.subscribed eventName s))
      as [Hin|Hno]; [|rewrite off_no_match by done; lia].
    destruct (findIndex (same_entry callback context)
                (Eventful.subscribed eventName s)) as [i|] eqn:Hi.
    + apply findIndex_Some in Hi as (l1 & t & l2 & Hs & _ & Ht & Hl1).
      apply same_entry_true in Ht. subst t.
      rewrite (Hfirst l1 l2 Hs), Hs.
      * rewrite !length_app. simpl. lia.
      * intros Hin1. rewrite Forall_forall in Hl1.
        specialize (Hl1 _ Hin1). by apply same_entry_false in Hl1.
    + rewrite findIndex_None, Forall_forall in Hi.
      specialize (Hi _ Hin). by apply same_entry_false in Hi.
  - unfold Eventful.off.
    destruct (Eventful.eventMap s); [|done].
    destruct (_ !! eventName); [|done].
    by destruct (findIndex _ _).
Qed.

Lemma off_removes_first_match_witness :
  let s :=
    (Eventful.run_program Scenario.silent 1
       [Aon "x" (VFun 1) VUndefined; Aon "x" (VFun 2) VUndefined;
        Aon "y" (VFun 3) VUndefined] Eventful.init).2 in
  let s' := Eventful.off "x" (VFun 1) VUndefined s in
  Eventful.subscribed "x" s' = [(VFun 2, VUndefined)] ∧
  Eventful.off "x" (VFun 1) VUndefined s' = s' ∧
  Eventful.subscribed "y" s' = [(VFun 3, VUndefined)].
Proof.
  intros s s'.
  assert (Eventful.wf s) as Hwf by apply wf_run, wf_init.
  destruct (off_removes_first_match "x" (VFun 1) VUndefined s Hwf)
    as (Hfirst & _ & _ & _ & Hother & _).
  destruct (Hfirst [] [(VFun 2, VUndefined)]) as [Hsub Hagain].
  - reflexivity.
  - inversion 1.
  - split; [exact Hsub|]. split.
    + apply Hagain. vm_compute. inversion 1 as [|? ? ? Hin]; inversion Hin.
    + etrans; [apply (Hother "y"); discriminate|]. by vm_compute.
Defined.

(** C8: after any program of [on], [off] and [emit] calls on a new
    instance, listeners included and however the program ends, an event
    name is a key of the map exactly when it has at least one entry, and
    the map itself is [null] exactly when no event name has an entry.  A
    new instance has no map; the first [on] creates it. *)
Theorem event_map_is_minimal
    (body : nat → script) (depth : nat) (p : script) :
  let s := (Eventful.run_program body depth p Eventful.init).2 in
  (∀ n, is_Some (Eventful.keys s !! n) ↔ Eventful.subscribed n s ≠ []) ∧
  (Eventful.eventMap s = None ↔ ∀ n, Eventful.subscribed n s = []) ∧
  Eventful.eventMap Eventful.init = None ∧
  (∀ n f context,
     Eventful.eventMap (Eventful.on n (VFun f) context Eventful.init).2
       = Some {[n := 0]}).
Proof.
  intros s.
  assert (Eventful.wf s) as (Hne & Harr & _) by apply wf_run, wf_init.
  assert (∀ n, is_Some (Eventful.keys s !! n)
               ↔ Eventful.subscribed n s ≠ []) as Hkeys.
  { intros n. unfold Eventful.subscribed, Eventful.keys in *.
    destruct (Eventful.eventMap s) as [m|]; simpl in *.
    - destruct (m !! n) as [a|] eqn:Ha.
      + split; [|by eauto]. intros _. by destruct (Harr _ _ Ha) as (_ & ? & _).
      + split; [by intros [? ?]|done].
    - rewrite lookup_empty. split; [by intros [? ?]|done]. }
  split; [exact Hkeys|]. split; [|split; [done|]].
  - split.
    + intros Hm n. unfold Eventful.subscribed. by rewrite Hm.
    + intros Hall. destruct (Eventful.eventMap s) as [m|] eqn:Hm; [|done].
      exfalso. destruct (map_choose m) as (n & a & Ha).
      { intros ->. by apply Hne. }
      apply (proj1 (Hkeys n)); [|apply Hall].
      unfold Eventful.keys. rewrite Hm. simpl. eauto.
  - intros n f context. unfold Eventful.on. simpl.
    by rewrite lookup_empty, insert_empty.
Qed.

(** C10: [off(eventName)] without a callback removes nothing: in every
    state a program of [on], [off] and [emit] calls can reach, the stored
    callbacks are functions, so none is identical to [undefined]. *)
Theorem off_without_callback_is_noop
    (body : nat → script) (depth : nat) (p : script)
    (eventName : string) (context : value) :
  let s := (Eventful.run_program body depth p Eventful.init).2 in
  Eventful.off eventName VUndefined context s = s.
Proof.
  intros s. apply off_no_match. intros Hin.
  assert (Eventful.wf s) as Hwf by apply wf_run, wf_init.
  pose proof (wf_subscribed_functions eventName s Hwf) as Hfun.
  rewrite Forall_forall in Hfun. by specialize (Hfun _ Hin).
Qed.

(** C1: dispatch over a stable snapshot.  The array-based [emit] (lines
    122-141) does not have the property.  With two listeners on [x], the
    first of which unsubscribes itself, [emit] reads [callbacks[1]] past
    the end of the shortened array and throws a TypeError, and the second
    listener, subscribed when [emit] began, is never invoked.  When the
    first listener also subscribes a new listener, that new entry is
    invoked in the same pass, in the place of the second listener. *)
Theorem array_emit_breaks_under_self_unsubscribe :
  let r :=
    Eventful.run_program Scenario.self_unsubscribing 2
      [Aon "x" (VFun 1) VUndefined; Aon "x" (VFun 2) VUndefined;
       Aemit "x" (VNum 7)] Eventful.init in
  let r' :=
    Eventful.run_program Scenario.replacing 2
      [Aon "x" (VFun 3) VUndefined; Aon "x" (VFun 2) VUndefined;
       Aemit "x" (VNum 7)] Eventful.init in
  r.1 = Throw (TypeError "Cannot read properties of undefined (reading '0')") ∧
  Eventful.trace r.2 = [Invoked (VFun 1) VUndefined (VNum 7)] ∧
  r'.1 = Normal ∧
  Eventful.trace r'.2 =
    [Invoked (VFun 3) VUndefined (VNum 7); Invoked (VFun 5) VUndefined (VNum 7)].
Proof. by vm_compute. Qed.

(** ** The set-based mixin *)

Section SetRegistry.
Import EventfulSet.

Lemma set_off_trace n callback context s :
  trace (off n callback context s) = trace s.
Proof.
  unfold off. destruct (eventMap s); [|done].
  destruct (_ !! n); [|done]. by destruct (find _ _).
Qed.

Lemma set_on_accepts n callback context s :
  is_function callback = true →
  ∃ s', on n callback context s = (Normal, s') ∧ trace s' = trace s.
Proof. intros Hf. unfold on. rewrite Hf. simpl. by eexists. Qed.

(** A body that only subscribes and unsubscribes returns, and invokes no
    listener. *)
Lemma set_exec_mutating call p : ∀ s,
  Forall mutating p →
  ∃ s', exec on off emit call p s = (Normal, s') ∧ trace s' = trace s.
Proof.
  induction p as [|a p IH]; intros s Hp; [by exists s|].
  inversion Hp as [|? ? Ha Hp']; subst.
  destruct a as [n cb ctx|n cb ctx| |]; cbn [mutating] in Ha; try done;
    cbn [exec step].
  - destruct (set_on_accepts n cb ctx s Ha) as (s1 & -> & Ht1).
    destruct (IH s1 Hp') as (s' & Hexec & Ht).
    exists s'. split; [done|]. by rewrite Ht.
  - destruct (IH (off n cb ctx s) Hp') as (s' & Hexec & Ht).
    exists s'. split; [done|]. by rewrite Ht, set_off_trace.
Qed.

Variable body : nat → script.

Lemma for_of_mutators d data snapshot : ∀ s,
  Forall (mutator body) (tuple_entry <$> snapshot) →
  ∃ s', for_of (call body (S d)) data snapshot s = (Normal, s') ∧
        trace s' = trace s ++ (invocation_of data <$> (tuple_entry <$> snapshot)).
Proof.
  induction snapshot as [|t snapshot IH]; intros s Hs; simpl.
  - exists s. by rewrite app_nil_r.
  - inversion Hs as [|? ? (f & Hf & Hb) Hs']; subst.
    destruct (tuple_entry t) as [c x] eqn:Ht. simpl in *. subst c.
    destruct (set_exec_mutating (call body d) (body f)
                (record (Invoked (VFun f) x data) s) Hb) as (s1 & Hexec & Ht1).
    unfold call at 1. simpl. unfold call in Hexec. rewrite Hexec.
    destruct (IH s1 Hs') as (s2 & Hfor & Ht2).
    exists s2. split; [done|]. rewrite Ht2, Ht1. simpl.
    by rewrite <- app_assoc.
Qed.

End SetRegistry.

(** X9: the set-based [emit] (lines 696-706) does dispatch over a snapshot:
    whatever the listeners subscribe or unsubscribe during the pass,
    themselves included, [emit] returns normally and has invoked exactly
    the entries subscribed when it began, once each, in insertion
    order. *)
Theorem set_emit_dispatches_snapshot
    (body : nat → script) (depth : nat) (name : string) (data : value)
    (s : EventfulSet.state) :
  Forall (mutator body) (EventfulSet.subscribed name s) →
  ∃ s',
    EventfulSet.emit (EventfulSet.call body (S depth)) name data s
      = (Normal, s') ∧
    EventfulSet.trace s' =
      EventfulSet.trace s ++
      (invocation_of data <$> EventfulSet.subscribed name s).
Proof.
  unfold EventfulSet.emit, EventfulSet.subscribed. intros Hs.
  destruct (EventfulSet.eventMap s) as [m|].
  - destruct (m !! name) as [callbacks|]; simpl in *.
    + by apply for_of_mutators.
    + exists s. by rewrite app_nil_r.
  - exists s. by rewrite app_nil_r.
Qed.

Lemma set_emit_dispatches_snapshot_witness :
  let s :=
    (EventfulSet.run_program Scenario.replacing 2
       [Aon "x" (VFun 3) VUndefined; Aon "x" (VFun 2) VUndefined]
       EventfulSet.init).2 in
  ∃ s',
    EventfulSet.emit (EventfulSet.call Scenario.replacing 1) "x" (VNum 7) s
      = (Normal, s') ∧
    EventfulSet.trace s' =
      [Invoked (VFun 3) VUndefined (VNum 7); Invoked (VFun 2) VUndefined (VNum 7)].
Proof.
  intros s.
  apply (set_emit_dispatches_snapshot Scenario.replacing 0 "x" (VNum 7) s).
  vm_compute. repeat constructor.
  - exists 3. split; [done|]. by repeat constructor.
  - exists 2. split; [done|]. by repeat constructor.
Defined.

(** On the set-based mixin the self-unsubscribing listener does no harm:
    both listeners run, and afterwards only the second is subscribed. *)
Example set_emit_survives_self_unsubscribe :
  let r :=
    EventfulSet.run_program Scenario.self_unsubscribing 2
      [Aon "x" (VFun 1) VUndefined; Aon "x" (VFun 2) VUndefined;
       Aemit "x" (VNum 7)] EventfulSet.init in
  r.1 = Normal ∧
  EventfulSet.trace r.2 =
    [Invoked (VFun 1) VUndefined (VNum 7); Invoked (VFun 2) VUndefined (VNum 7)] ∧
  EventfulSet.subscribed "x" r.2 = [(VFun 2, VUndefined)].
Proof. by vm_compute. Qed.

(** ** The [instanceof Eventful] test *)

Section InstanceCheck.
Import Instance.

Lemma chain_get_unaware chain :
  Forall unaware chain → chain_get isEventful_key chain = VUndefined.
Proof.
  induction 1 as [|t chain Ht _ IH]; simpl; [done|].
  unfold unaware in Ht. by rewrite Ht.
Qed.

(** The constructor of a composed class leaves the marker on the
    instance itself. *)
Lemma construct_own_marked c args :
  outside c → composed c = true →
  construct_own c args !! isEventful_key = Some isEventful.
Proof.
  induction c as [protos construct|Base IH|Parent IH methods fields];
    simpl; intros Hout Hc.
  - done.
  - by rewrite lookup_insert_eq.
  - destruct Hout as (_ & Hfields & Hout).
    rewrite lookup_union_r; [by apply IH|apply Hfields].
Qed.

Lemma construct_own_unmarked c args :
  outside c → composed c = false → unaware (construct_own c args).
Proof.
  induction c as [protos construct|Base IH|Parent IH methods fields];
    simpl; intros Hout Hc.
  - by destruct Hout.
  - done.
  - destruct Hout as (_ & Hfields & Hout). unfold unaware.
    apply lookup_union_None. split; [apply Hfields|by apply IH].
Qed.

Lemma prototype_chain_unmarked c :
  outside c → composed c = false → Forall unaware (prototype_chain c).
Proof.
  induction c as [protos construct|Base IH|Parent IH methods fields];
    simpl; intros Hout Hc.
  - by destruct Hout.
  - done.
  - destruct Hout as (Hm & _ & Hout). constructor; [done|by apply IH].
Qed.

(** The prototype chain of a composed class carries the marker too. *)
Lemma prototype_chain_marked c :
  outside c → composed c = true →
  chain_get isEventful_key (prototype_chain c) = isEventful.
Proof.
  induction c as [protos construct|Base IH|Parent IH methods fields];
    simpl; intros Hout Hc.
  - done.
  - unfold eventful_prototype. by rewrite lookup_insert_eq.
  - destruct Hout as (Hm & _ & Hout). unfold unaware in Hm.
    rewrite Hm. by apply IH.
Qed.

End InstanceCheck.

(** C5: the [instanceof Eventful] test answers [true] for every instance
    of a class in whose ancestry the mixin was applied, whatever the base
    (a built-in such as [Array] included) and however many subclasses
    lie above it, and [false] for every object none of whose tables has
    the private marker, whatever method names it exposes, and for every
    primitive. *)
Theorem hasInstance_is_provenance :
  (∀ c args,
     Instance.outside c →
     Instance.hasInstance (Instance.OObj (Instance.new c args))
       = Instance.composed c) ∧
  (∀ o,
     Instance.unaware (Instance.own o) →
     Forall Instance.unaware (Instance.prototypes o) →
     Instance.hasInstance (Instance.OObj o) = false) ∧
  (∀ v wrapper,
     Forall Instance.unaware wrapper →
     Instance.hasInstance (Instance.OPrim v wrapper) = false).
Proof.
  split; [|split].
  - intros c args Hout. unfold Instance.hasInstance. simpl.
    destruct (Instance.composed c) eqn:Hc.
    + by rewrite construct_own_marked.
    + pose proof (construct_own_unmarked c args Hout Hc) as Hown.
      unfold Instance.unaware in Hown. rewrite Hown.
      by rewrite chain_get_unaware by by apply prototype_chain_unmarked.
  - intros [own protos] Hown Hprotos. unfold Instance.hasInstance. simpl in *.
    unfold Instance.unaware in Hown. rewrite Hown.
    by rewrite chain_get_unaware.
  - intros v wrapper Hw. unfold Instance.hasInstance. simpl.
    rewrite chain_get_unaware by done. by destruct (truthy v).
Qed.

Lemma hasInstance_is_provenance_witness :
  Instance.hasInstance
    (Instance.OObj (Instance.new Scenario.AnotherClass [])) = true ∧
  Instance.hasInstance
    (Instance.OObj (Instance.new Scenario.ArrayClass [])) = false ∧
  Instance.hasInstance (Instance.OObj Scenario.lookalike) = false ∧
  Instance.hasInstance
    (Instance.OPrim (VNum 5) [Scenario.object_prototype]) = false.
Proof.
  destruct hasInstance_is_provenance as (Hclass & Hobj & Hprim).
  split; [|split; [|split]].
  - apply (Hclass Scenario.AnotherClass []). vm_compute.
    repeat split; repeat constructor.
  - apply (Hclass Scenario.ArrayClass []). vm_compute.
    repeat split; repeat constructor.
  - apply (Hobj Scenario.lookalike); vm_compute; repeat constructor.
  - apply (Hprim (VNum 5) [Scenario.object_prototype]).
    vm_compute; repeat constructor.
Defined.

(** ** The [@emits] decorator *)

Section EmitsFacts.
Import Emits.
Context {U : Type}.



End EmitsFacts.

(** X13: the decorator refuses a class outside the composition family
    at decoration time, and accepts every prototype of a composed
    class. *)
Lemma _emits_checks_the_class {U : Type} (c : Instance.class)
    (propName eventName : string)
    (descriptor ownDescriptor : option (Emits.PropertyDescriptor U)) :
  Instance.outside c →
  (∃ e, Emits._emits (Instance.prototype_of c) propName descriptor
          ownDescriptor eventName = Emits.Rejected e)
  ↔ Instance.composed c = false.
Proof.
  intros Hout. unfold Emits._emits, Instance.hasInstance.
  assert (Instance.get (Instance.OObj (Instance.prototype_of c))
            Instance.isEventful_key
          = Instance.chain_get Instance.isEventful_key
              (Instance.prototype_chain c)) as ->.
  { unfold Instance.prototype_of. by destruct (Instance.prototype_chain c). }
  simpl. destruct (Instance.composed c) eqn:Hc.
  - rewrite prototype_chain_marked by done. simpl. split; [|done].
    intros [e He]. destruct descriptor as [d|], ownDescriptor as [d'|];
      simpl in He; repeat case_match; discriminate.
  - rewrite chain_get_unaware by by apply prototype_chain_unmarked.
    simpl. split; [done|]. intros _. by eexists.
Qed.

(** C3: the first read of a decorated field on an instance returns the
    declared initial value.  The code keeps the [initialValueIsSet] flag
    in the closure of the decorator call, one per decorated property and
    not one per instance: after the first read (or write) on any
    instance, the first read on another instance finds the flag set and
    returns that instance's empty hidden slot, [undefined], not the
    declared initial value 123. *)
Theorem initial_value_flag_is_shared_between_instances :
  let decorated :=
    Emits._emits (U := unit) (Instance.prototype_of Scenario.Foo) "foo" None
      (Some (Emits.Descriptor None None (VNum 123) true)) "change" in
  let a := Emits.Backed (U := unit) (VNum 123) in
  let first := Emits.Inst 1 Eventful.init None tt in
  let second := Emits.Inst 2 Eventful.init None tt in
  let w0 := Emits.Shared false [] in
  let r1 := Emits.get a first w0 in
  let r2 := Emits.get a second r1.2 in
  let w := Emits.set "change" "foo" a (VNum 456) first w0 in
  let r3 := Emits.get a second w.2 in
  decorated = Emits.Installed a true ∧
  r1.1.1 = (Normal, VNum 123) ∧
  Emits.initialValueIsSet r1.2 = true ∧
  r2.1.1 = (Normal, VUndefined) ∧
  r3.1.1 = (Normal, VUndefined).
Proof. by vm_compute. Qed.




(** The reactive-property scenario of the specification, end to end: a
    listener [h] subscribed to [change]; assigning 456 to the decorated
    field invokes nothing yet, the field already reads 456, and running
    the pending job invokes [h] once with the property name. *)
Example reactive_property_scenario :
  let a := Emits.Backed (U := unit) (VNum 123) in
  let subscribed :=
    (Eventful.on "change" (VFun 1) VUndefined Eventful.init).2 in
  let this := Emits.Inst 1 subscribed None tt in
  let r := Emits.set "change" "foo" a (VNum 456) this (Emits.Shared false []) in
  let read := Emits.get a r.1.2 r.2 in
  Eventful.trace (Emits.registry r.1.2) = [] ∧
  read.1.1 = (Normal, VNum 456) ∧
  Emits.microtasks r.2 = [Emits.Job 1 "change" (VStr "foo")] ∧
  Eventful.trace
    (Emits.registry
       (Emits.emitEvent Scenario.silent 1 (Emits.Job 1 "change" (VStr "foo"))
          r.1.2).2)
    = [Invoked (VFun 1) VUndefined (VStr "foo")].
Proof. by vm_compute. Qed.

(** * Further properties of the array-based mixin *)

Section ArrayFurther.
Import Eventful.

Lemma subscribed_key n a s :
  keys s !! n = Some a → subscribed n s = array s a.
Proof.
  unfold keys, subscribed. destruct (eventMap s) as [m|]; simpl.
  - by intros ->.
  - by rewrite lookup_empty.
Qed.

Lemma subscribed_no_key n s : keys s !! n = None → subscribed n s = [].
Proof.
  unfold keys, subscribed. destruct (eventMap s) as [m|]; simpl; [|done].
  by intros ->.
Qed.

Lemma drop_head {A} (l : list A) i x rest :
  drop i l = x :: rest → l !! i = Some x ∧ drop (S i) l = rest.
Proof.
  intros Hd. split.
  - rewrite <- (Nat.add_0_r i), <- lookup_drop. by rewrite Hd.
  - change (S i) with (1 + i). rewrite Nat.add_comm, <- drop_drop. by rewrite Hd.
Qed.

(** [on] leaves the collections of other event names as they were. *)
Lemma on_other n n' callback context s :
  wf s → n' ≠ n →
  subscribed n' (on n callback context s).2 = subscribed n' s.
Proof.
  intros (Hne & Harr & Hinj) Hnn. unfold on.
  destruct (is_function callback); simpl; [|done].
  assert (keys s = match eventMap s with Some m => m | None => ∅ end) as Hk
    by (unfold keys; by destruct (eventMap s)).
  rewrite <- Hk. clear Hk.
  destruct (keys s !! n) as [a|] eqn:Ha.
  - destruct (keys s !! n') as [a'|] eqn:Ha'.
    + rewrite (subscribed_key n' a' s Ha').
      unfold subscribed. simpl. rewrite Ha'. unfold array. simpl.
      rewrite lookup_insert_ne; [done|]. intros ->. apply Hnn. eauto.
    + rewrite (subscribed_no_key n' s Ha').
      unfold subscribed. simpl. by rewrite Ha'.
  - unfold subscribed at 1. simpl. rewrite lookup_insert_ne by done.
    destruct (keys s !! n') as [a'|] eqn:Ha'.
    + rewrite (subscribed_key n' a' s Ha'). unfold array. simpl.
      destruct (Harr _ _ Ha') as (Hlt & _).
      rewrite lookup_insert_ne; [done|lia].
    + by rewrite (subscribed_no_key n' s Ha').
Qed.

Lemma emit_loop_throws body depth a data f context e rest after before :
  ∀ i s r,
  drop i (array s a) = before ++ (VFun f, context) :: after →
  Forall (quiet body) before →
  body f = Athrow e :: rest →
  r = length (array s a) - i →
  emit_loop (call body (S depth)) a data r i s =
  (Throw e,
   observe ((invocation_of data <$> before) ++ [Invoked (VFun f) context data])
     s).
Proof.
  induction before as [|q before IH]; intros i s r Hd Hq Hf Hr; simpl in Hd;
    destruct (drop_head _ _ _ _ Hd) as [Hi Hd'];
    (assert (r = S (length (array s a) - S i)) as ->
       by (apply lookup_lt_Some in Hi; lia));
    cbn [emit_loop]; rewrite Hi.
  - unfold call. simpl. by rewrite Hf.
  - inversion Hq as [|? ? Hq1 Hq2]; subst. destruct q as [c x].
    pose proof (call_quiet body depth (c, x) data s Hq1) as Hc.
    cbn [fst snd] in Hc. rewrite Hc.
    etrans; [by apply IH|].
    by rewrite observe_observe.
Qed.

End ArrayFurther.

(** X1: [emit] for an event name without entries, on an instance with
    or without an event map, returns normally and leaves the instance as
    it was, whatever the listeners of other events would do. *)
Theorem emit_without_subscribers_is_noop
    (call : value → value → value → Eventful.state → completion * Eventful.state)
    (eventName : string) (data : value) (s : Eventful.state) :
  Eventful.subscribed eventName s = [] →
  Eventful.emit call eventName data s = (Normal, s).
Proof.
  unfold Eventful.subscribed, Eventful.emit. intros Hs.
  destruct (Eventful.eventMap s) as [m|]; [|done].
  destruct (m !! eventName) as [a|]; [|done]. by rewrite Hs.
Qed.

Lemma emit_without_subscribers_is_noop_witness :
  let s := (Eventful.on "x" (VFun 1) VUndefined Eventful.init).2 in
  Eventful.emit (Eventful.call Scenario.throwing 3) "y" (VNum 7) s
  = (Normal, s).
Proof.
  intros s.
  apply (emit_without_subscribers_is_noop
           (Eventful.call Scenario.throwing 3) "y" (VNum 7) s).
  by vm_compute.
Defined.

(** X2: an exception thrown by a listener is not caught by [emit]: it
    reaches the caller of [emit], the listeners subscribed before the
    throwing one have run, and those after it are not invoked. *)
Theorem listener_exception_aborts_dispatch
    (body : nat → script) (depth : nat) (eventName : string) (data : value)
    (f : nat) (context : value) (e : exn) (rest : script)
    (before after : list entry) (s : Eventful.state) :
  Eventful.subscribed eventName s = before ++ (VFun f, context) :: after →
  Forall (quiet body) before →
  body f = Athrow e :: rest →
  Eventful.emit (Eventful.call body (S depth)) eventName data s =
  (Throw e,
   Eventful.observe
     ((invocation_of data <$> before) ++ [Invoked (VFun f) context data]) s).
Proof.
  intros Hs Hq Hf. unfold Eventful.emit, Eventful.subscribed in *.
  destruct (Eventful.eventMap s) as [m|]; [|by destruct before].
  destruct (m !! eventName) as [a|]; [|by destruct before].
  apply (emit_loop_throws body depth a data f context e rest after before);
    [by rewrite drop_0|done|done|lia].
Qed.

Lemma listener_exception_aborts_dispatch_witness :
  let s :=
    (Eventful.run_program Scenario.throwing 1
       [Aon "x" (VFun 2) VUndefined; Aon "x" (VFun 1) VUndefined;
        Aon "x" (VFun 3) VUndefined] Eventful.init).2 in
  Eventful.emit (Eventful.call Scenario.throwing 1) "x" (VNum 7) s =
  (Throw (Error "boom"),
   Eventful.observe
     [Invoked (VFun 2) VUndefined (VNum 7); Invoked (VFun 1) VUndefined (VNum 7)]
     s).
Proof.
  intros s.
  apply (listener_exception_aborts_dispatch Scenario.throwing 0 "x" (VNum 7)
           1 VUndefined (Error "boom") [] [(VFun 2, VUndefined)]
           [(VFun 3, VUndefined)] s).
  - by vm_compute.
  - repeat constructor. by exists 2.
  - reflexivity.
Defined.

(** X3: [on] invokes no listener and leaves the entries of every other
    event name as they were. *)
Theorem on_leaves_other_events
    (eventName other : string) (callback context : value)
    (s : Eventful.state) :
  Eventful.wf s → other ≠ eventName →
  let s' := (Eventful.on eventName callback context s).2 in
  Eventful.subscribed other s' = Eventful.subscribed other s ∧
  Eventful.trace s' = Eventful.trace s.
Proof.
  intros Hwf Hne s'. split; [by apply on_other|].
  unfold s', Eventful.on. destruct (is_function callback); simpl; [|done].
  by destruct (_ !! eventName).
Qed.

Lemma on_leaves_other_events_witness :
  let s := (Eventful.on "x" (VFun 1) VUndefined Eventful.init).2 in
  let s' := (Eventful.on "y" (VFun 2) VUndefined s).2 in
  Eventful.subscribed "x" s' = [(VFun 1, VUndefined)] ∧
  Eventful.trace s' = [].
Proof.
  intros s s'.
  destruct (on_leaves_other_events "y" "x" (VFun 2) VUndefined s)
    as [Hsub Htrace].
  - apply wf_on, wf_init.
  - discriminate.
  - split; [etrans; [exact Hsub|by vm_compute]|exact Htrace].
Defined.

(** What [off] does when the first match sits behind [l1]. *)
Lemma off_splices n callback context s m a l1 l2 :
  Eventful.eventMap s = Some m → m !! n = Some a →
  Eventful.array s a = l1 ++ (callback, context) :: l2 →
  (callback, context) ∉ l1 →
  Eventful.off n callback context s =
  Eventful.State
    (let m' := if bool_decide (length (l1 ++ l2) = 0) then delete n m else m in
     if bool_decide (size m' = 0) then None else Some m')
    (<[a := l1 ++ l2]> (Eventful.arrays s))
    (Eventful.fresh s) (Eventful.trace s).
Proof.
  intros Hm Ha Harr Hl1. unfold Eventful.off. rewrite Hm, Ha, Harr.
  rewrite findIndex_first, delete_middle; [done| |by apply same_entry_true].
  apply Forall_forall. intros t Ht. apply same_entry_false. by intros ->.
Qed.

(** X4: subscribing a pair that is not yet subscribed and unsubscribing
    it again restores the event map as it was: the key and the map that
    [on] created are gone again, and every event name has the entries it
    had before. *)
Theorem on_then_off_restores
    (eventName : string) (callback context : value) (s : Eventful.state) :
  Eventful.wf s →
  typeof callback = "function" →
  (callback, context) ∉ Eventful.subscribed eventName s →
  let s' :=
    Eventful.off eventName callback context
      (Eventful.on eventName callback context s).2 in
  Eventful.eventMap s' = Eventful.eventMap s ∧
  ∀ n, Eventful.subscribed n s' = Eventful.subscribed n s.
Proof.
  intros Hwf Ht Hnew s'.
  assert (is_function callback = true) as Hf
    by (unfold is_function; by rewrite bool_decide_eq_true).
  assert (Eventful.wf (Eventful.on eventName callback context s).2) as Hwf1
    by by apply wf_on.
  destruct (on_accepts eventName callback context s Hf) as (s1 & Hon & Hs1 & _).
  rewrite Hon in Hwf1. simpl in Hwf1.
  split.
  - unfold s'. rewrite Hon. simpl. clear s'.
    destruct Hwf as (Hne & Harr & _).
    unfold Eventful.on in Hon. rewrite Hf in Hon. simpl in Hon.
    assert (Eventful.keys s =
            match Eventful.eventMap s with Some m => m | None => ∅ end) as Hk
      by (unfold Eventful.keys; by destruct (Eventful.eventMap s)).
    rewrite <- Hk in Hon. clear Hk.
    destruct (Eventful.keys s !! eventName) as [a|] eqn:Ha.
    + injection Hon as <-.
      rewrite (subscribed_key _ _ _ Ha) in Hnew.
      destruct (Harr _ _ Ha) as (_ & Hnil & _).
      erewrite (off_splices eventName callback context _ (Eventful.keys s) a
                  (Eventful.array s a) []); [|done|done| |done].
      2:{ unfold Eventful.array. simpl. by rewrite lookup_insert_eq. }
      simpl. rewrite app_nil_r.
      rewrite (bool_decide_eq_false_2 (length _ = 0))
        by (by destruct (Eventful.array s a)).
      rewrite bool_decide_eq_false_2.
      * unfold Eventful.keys in *.
        destruct (Eventful.eventMap s); simpl in *; [done|].
        by rewrite lookup_empty in Ha.
      * rewrite map_size_non_empty_iff. intros Hm.
        by rewrite Hm, lookup_empty in Ha.
    + injection Hon as <-.
      erewrite (off_splices eventName callback context _
                  (<[eventName:=Eventful.fresh s]> (Eventful.keys s))
                  (Eventful.fresh s) [] []); [|done| | |inversion 1].
      2:{ simpl. by rewrite lookup_insert_eq. }
      2:{ unfold Eventful.array. simpl. by rewrite lookup_insert_eq. }
      simpl. rewrite delete_insert_id by done.
      unfold Eventful.keys in *.
      destruct (Eventful.eventMap s) as [m|] eqn:Hm; simpl in *.
      * rewrite bool_decide_eq_false_2; [done|].
        rewrite map_size_non_empty_iff. by intros ->.
      * by rewrite bool_decide_eq_true_2 by apply map_size_empty.
  - intros n. unfold s'. rewrite Hon. simpl.
    destruct (decide (n = eventName)) as [->|Hn].
    + destruct (off_first_match eventName callback context s1
                  (Eventful.subscribed eventName s) []) as [Hsub _];
        [done|done|].
      by rewrite Hsub, app_nil_r.
    + rewrite off_other by done.
      pose proof (on_other eventName n callback context s Hwf Hn) as Hother.
      by rewrite Hon in Hother.
Qed.

Lemma on_then_off_restores_witness :
  let s := (Eventful.on "x" (VFun 1) VUndefined Eventful.init).2 in
  let s' :=
    Eventful.off "y" (VFun 2) (VObj 3)
      (Eventful.on "y" (VFun 2) (VObj 3) s).2 in
  Eventful.eventMap s' = Eventful.eventMap s ∧
  ∀ n, Eventful.subscribed n s' = Eventful.subscribed n s.
Proof.
  intros s.
  apply (on_then_off_restores "y" (VFun 2) (VObj 3) s).
  - apply wf_on, wf_init.
  - reflexivity.
  - vm_compute. inversion 1.
Defined.

Section ArrayAppend.
Import Eventful.

(** [on] only ever appends to an array that was allocated before, and
    keeps every key of the map. *)
Lemma on_appends_only n callback context s k a :
  is_function callback = true →
  a < fresh s → keys s !! k = Some a →
  ∃ s' extra,
    on n callback context s = (Normal, s') ∧
    array s' a = array s a ++ extra ∧
    (fresh s ≤ fresh s')%nat ∧ keys s' !! k = Some a ∧ trace s' = trace s.
Proof.
  intros Hf Hlt Hk. unfold on. rewrite Hf. simpl.
  assert (keys s = match eventMap s with Some m => m | None => ∅ end) as Hkeys
    by (unfold keys; by destruct (eventMap s)).
  rewrite <- Hkeys. clear Hkeys.
  destruct (keys s !! n) as [a'|] eqn:Ha'.
  - destruct (decide (a' = a)) as [->|Hne].
    + eexists _, [(callback, context)]. split; [done|].
      unfold array, keys. simpl. rewrite lookup_insert_eq. by repeat split.
    + eexists _, []. split; [done|].
      unfold array, keys. simpl. rewrite lookup_insert_ne by done.
      rewrite app_nil_r. by repeat split.
  - eexists _, []. split; [done|].
    unfold array. simpl. rewrite lookup_insert_ne by lia.
    rewrite app_nil_r. split; [done|]. split; [lia|]. split; [|done].
    unfold keys at 1. simpl. rewrite lookup_insert_ne; [done|].
    intros ->. by rewrite Hk in Ha'.
Qed.

Lemma exec_subscribing call k a p : ∀ s,
  Forall subscribing p →
  a < fresh s → keys s !! k = Some a →
  ∃ s' extra,
    exec on off emit call p s = (Normal, s') ∧
    array s' a = array s a ++ extra ∧
    a < fresh s' ∧ keys s' !! k = Some a ∧ trace s' = trace s.
Proof.
  induction p as [|act p IH]; intros s Hp Hlt Hk.
  - exists s, []. by rewrite app_nil_r.
  - inversion Hp as [|? ? Hact Hp']; subst.
    destruct act as [n cb ctx| | |]; cbn [subscribing] in Hact; try done.
    destruct (on_appends_only n cb ctx s k a Hact Hlt Hk)
      as (s1 & extra1 & Hon & Harr1 & Hfresh1 & Hk1 & Ht1).
    destruct (IH s1 Hp') as (s2 & extra2 & Hexec & Harr2 & Hlt2 & Hk2 & Ht2);
      [lia|done|].
    exists s2, (extra1 ++ extra2). cbn [exec step]. rewrite Hon.
    split; [exact Hexec|]. rewrite Harr2, Harr1, Ht2, Ht1.
    by rewrite <- app_assoc.
Qed.

Variable body : nat → script.

Lemma emit_loop_subscribers d k a data (snapshot : list entry) : ∀ r i s extra,
  array s a = snapshot ++ extra →
  a < fresh s → keys s !! k = Some a →
  Forall (subscriber body) (drop i snapshot) →
  r = length snapshot - i →
  ∃ s' extra',
    emit_loop (call body (S d)) a data r i s = (Normal, s') ∧
    array s' a = snapshot ++ extra' ∧ keys s' !! k = Some a ∧
    trace s' = trace s ++ (invocation_of data <$> drop i snapshot).
Proof.
  induction r as [|r IH]; intros i s extra Harr Hlt Hk Hsub Hr.
  - exists s, extra. rewrite drop_ge by lia. simpl.
    by rewrite app_nil_r.
  - destruct (snapshot !! i) as [[c x]|] eqn:Hi.
    2:{ apply lookup_ge_None in Hi. exfalso. lia. }
    rewrite (drop_S _ _ _ Hi) in Hsub |- *.
    inversion Hsub as [|? ? (f & Hc & Hb) Hsub']; subst. simpl in Hc. subst c.
    cbn [emit_loop]. rewrite Harr, lookup_app_l by (by eapply lookup_lt_Some).
    rewrite Hi.
    destruct (exec_subscribing (call body d) k a (body f)
                (record (Invoked (VFun f) x data) s) Hb Hlt Hk)
      as (s1 & extra1 & Hexec & Harr1 & Hlt1 & Hk1 & Ht1).
    unfold call at 1. cbn [invoke]. unfold call in Hexec. rewrite Hexec.
    destruct (IH (S i) s1 (extra ++ extra1))
      as (s2 & extra2 & Hloop & Harr2 & Hk2 & Ht2); [|done|done|done|lia|].
    { rewrite Harr1. change (array (record _ s) a) with (array s a).
      by rewrite Harr, <- app_assoc. }
    exists s2, extra2. split; [exact Hloop|]. split; [done|]. split; [done|].
    rewrite Ht2, Ht1. simpl. by rewrite <- app_assoc.
Qed.

End ArrayAppend.

(** X5: when the listeners of an event only subscribe further
    listeners, the array-based [emit] returns normally and has invoked
    exactly the entries subscribed when it began, once each and in
    order: the length is read before the loop, so entries appended
    during the pass wait for the next [emit], where they follow the old
    ones. *)
Theorem emit_ignores_entries_appended_during_pass
    (body : nat → script) (depth : nat) (eventName : string) (data : value)
    (s : Eventful.state) :
  Eventful.wf s →
  Forall (subscriber body) (Eventful.subscribed eventName s) →
  ∃ s' added,
    Eventful.emit (Eventful.call body (S depth)) eventName data s
      = (Normal, s') ∧
    Eventful.trace s' =
      Eventful.trace s ++
      (invocation_of data <$> Eventful.subscribed eventName s) ∧
    Eventful.subscribed eventName s' =
      Eventful.subscribed eventName s ++ added.
Proof.
  intros (_ & Harr & _) Hsub. unfold Eventful.emit.
  destruct (Eventful.keys s !! eventName) as [a|] eqn:Ha.
  - rewrite (subscribed_key _ _ _ Ha) in *.
    destruct (Harr _ _ Ha) as (Hlt & _).
    unfold Eventful.keys in Ha.
    destruct (Eventful.eventMap s) as [m|] eqn:Hm; simpl in Ha;
      [|by rewrite lookup_empty in Ha].
    rewrite Ha.
    destruct (emit_loop_subscribers body depth eventName a data
                (Eventful.array s a) (length (Eventful.array s a)) 0 s [])
      as (s' & added & Hloop & Harr' & Hk' & Ht');
      [by rewrite app_nil_r|done|by unfold Eventful.keys; rewrite Hm|done|lia|].
    exists s', added. split; [exact Hloop|]. split; [exact Ht'|].
    by rewrite (subscribed_key _ _ _ Hk').
  - exists s, []. rewrite (subscribed_no_key _ _ Ha).
    split; [|simpl; by rewrite app_nil_r].
    unfold Eventful.keys in Ha.
    destruct (Eventful.eventMap s); simpl in Ha; [by rewrite Ha|done].
Qed.

Lemma emit_ignores_entries_appended_during_pass_witness :
  let s :=
    (Eventful.run_program Scenario.adding 1
       [Aon "x" (VFun 1) VUndefined; Aon "x" (VFun 2) VUndefined]
       Eventful.init).2 in
  ∃ s' added,
    Eventful.emit (Eventful.call Scenario.adding 1) "x" (VNum 7) s
      = (Normal, s') ∧
    Eventful.trace s' =
      [Invoked (VFun 1) VUndefined (VNum 7); Invoked (VFun 2) VUndefined (VNum 7)] ∧
    Eventful.subscribed "x" s' =
      [(VFun 1, VUndefined); (VFun 2, VUndefined)] ++ added.
Proof.
  intros s.
  apply (emit_ignores_entries_appended_during_pass Scenario.adding 0 "x"
           (VNum 7) s).
  - apply wf_run, wf_init.
  - vm_compute. repeat constructor.
    + exists 1. split; [done|]. by repeat constructor.
    + exists 2. split; [done|]. by repeat constructor.
Defined.

(** A call of a function object runs its body one frame deeper. *)
Lemma call_function body d f context data s :
  Eventful.call body (S d) (VFun f) context data s =
  exec Eventful.on Eventful.off Eventful.emit (Eventful.call body d) (body f)
    (Eventful.record (Invoked (VFun f) context data) s).
Proof. done. Qed.

(** X6: [emit] is synchronous and re-entrant: when the first listener
    of an event emits another event, the listeners of that other event
    run inside its call, before the remaining listeners of the first
    event. *)
Theorem nested_emit_runs_depth_first
    (body : nat → script) (depth : nat) (outer inner : string)
    (data relayed : value) (f : nat) (context : value)
    (rest : list entry) (s : Eventful.state) :
  body f = [Aemit inner relayed] →
  Eventful.subscribed outer s = (VFun f, context) :: rest →
  Forall (quiet body) rest →
  Forall (quiet body) (Eventful.subscribed inner s) →
  Eventful.emit (Eventful.call body (S (S depth))) outer data s =
  (Normal,
   Eventful.observe
     (Invoked (VFun f) context data ::
      (invocation_of relayed <$> Eventful.subscribed inner s) ++
      (invocation_of data <$> rest)) s).
Proof.
  intros Hf Hs Hrest Hinner. unfold Eventful.emit.
  pose proof Hs as Hs'. unfold Eventful.subscribed in Hs'.
  destruct (Eventful.eventMap s) as [m|] eqn:Hm; [|done].
  destruct (m !! outer) as [a|] eqn:Ha; [|done].
  rewrite Hs'. cbn [length Eventful.emit_loop].
  rewrite Hs'. cbn [lookup list_lookup].
  rewrite call_function, Hf, record_observe. cbn [exec step].
  rewrite emit_quiet by done. cbn [exec].
  rewrite (emit_loop_quiet body (S depth) a data (length rest) 1).
  - rewrite !array_observe, Hs'. cbn [drop].
    rewrite !observe_observe. by rewrite subscribed_observe.
  - rewrite !array_observe, Hs'. by cbn [drop].
  - rewrite !array_observe, Hs'. simpl. lia.
Qed.

Lemma nested_emit_runs_depth_first_witness :
  let s :=
    (Eventful.run_program Scenario.relaying 1
       [Aon "x" (VFun 1) VUndefined; Aon "x" (VFun 2) VUndefined;
        Aon "y" (VFun 3) VUndefined] Eventful.init).2 in
  Eventful.emit (Eventful.call Scenario.relaying 2) "x" (VNum 7) s =
  (Normal,
   Eventful.observe
     [Invoked (VFun 1) VUndefined (VNum 7);
      Invoked (VFun 3) VUndefined (VNum 8);
      Invoked (VFun 2) VUndefined (VNum 7)] s).
Proof.
  intros s.
  apply (nested_emit_runs_depth_first Scenario.relaying 0 "x" "y" (VNum 7)
           (VNum 8) 1 VUndefined [(VFun 2, VUndefined)] s).
  - reflexivity.
  - by vm_compute.
  - repeat constructor. by exists 2.
  - vm_compute. repeat constructor. by exists 3.
Defined.

(** X7: every state a program of [on], [off] and [emit] calls reaches
    from a new instance, however it ends, is well-formed: each key of
    the map refers to its own allocated, non-empty array, and every
    stored callback is a function. *)
Theorem reachable_states_are_well_formed
    (body : nat → script) (depth : nat) (p : script) :
  Eventful.wf (Eventful.run_program body depth p Eventful.init).2.
Proof. apply wf_run, wf_init. Qed.

Section ArrayRepeat.
Import Eventful.
Variable body : nat → script.

Lemma exec_emits_quiet d n data k : ∀ s,
  Forall (quiet body) (subscribed n s) →
  exec on off emit (call body (S d)) (replicate k (Aemit n data)) s =
  (Normal,
   observe (mjoin (replicate k (invocation_of data <$> subscribed n s))) s).
Proof.
  induction k as [|k IH]; intros s Hq; cbn [replicate exec step].
  - simpl. by rewrite observe_nil.
  - rewrite emit_quiet by done. rewrite IH by done.
    by rewrite subscribed_observe, observe_observe.
Qed.

End ArrayRepeat.

(** X8: with listeners that leave the instance alone, [k] calls of
    [emit] invoke the subscribed entries [k] times over, pass after
    pass, and leave the subscriptions as they were. *)
Theorem repeated_emit_repeats_dispatch
    (body : nat → script) (depth : nat) (eventName : string) (data : value)
    (k : nat) (s : Eventful.state) :
  Forall (quiet body) (Eventful.subscribed eventName s) →
  Eventful.run_program body (S depth) (replicate k (Aemit eventName data)) s =
  (Normal,
   Eventful.observe
     (mjoin (replicate k
               (invocation_of data <$> Eventful.subscribed eventName s))) s).
Proof. intros Hq. by apply exec_emits_quiet. Qed.

Lemma repeated_emit_repeats_dispatch_witness :
  let s := (Eventful.on "foo" (VFun 1) VUndefined Eventful.init).2 in
  Eventful.run_program Scenario.silent 1
    (replicate 3 (Aemit "foo" VUndefined)) s =
  (Normal,
   Eventful.observe
     [Invoked (VFun 1) VUndefined VUndefined;
      Invoked (VFun 1) VUndefined VUndefined;
      Invoked (VFun 1) VUndefined VUndefined] s).
Proof.
  intros s.
  apply (repeated_emit_repeats_dispatch Scenario.silent 0 "foo" VUndefined 3 s).
  vm_compute. repeat constructor. by exists 1.
Defined.

(** * Further properties of the set-based mixin *)

Section SetFurther.
Import EventfulSet.

Lemma find_first {A} (p : A → bool) (k1 k2 : list A) x :
  Forall (λ y, p y = false) k1 → p x = true →
  find p (k1 ++ x :: k2) = Some x.
Proof.
  intros Hk1 Hx. induction Hk1 as [|y k1 Hy _ IH]; simpl.
  - by rewrite Hx.
  - by rewrite Hy.
Qed.

Lemma find_none_all {A} (p : A → bool) (l : list A) :
  Forall (λ y, p y = false) l → find p l = None.
Proof. induction 1 as [|y l Hy _ IH]; simpl; [done|by rewrite Hy]. Qed.

Lemma filter_all {A} (P : A → Prop) `{∀ x, Decision (P x)} (l : list A) :
  Forall P l → filter P l = l.
Proof.
  induction 1 as [|x l Hx _ IH]; [done|].
  by rewrite filter_cons_True, IH.
Qed.

(** Deleting a member of a duplicate-free list takes out that one
    position. *)
Lemma set_delete_middle (k1 k2 : list tuple) t :
  NoDup (k1 ++ t :: k2) → set_delete t (k1 ++ t :: k2) = k1 ++ k2.
Proof.
  intros Hnd. unfold set_delete.
  apply NoDup_app in Hnd as (_ & Hk1 & Hk2).
  apply NoDup_cons in Hk2 as [Hk2 _].
  rewrite filter_app, filter_cons_False by (by intros ?).
  rewrite !filter_all; [done| |].
  - apply Forall_forall. by intros u Hu ->.
  - apply Forall_forall. intros u Hu ->. apply (Hk1 t Hu). by left.
Qed.

Lemma set_keys_Some s m : eventMap s = Some m → keys s = m.
Proof. unfold keys. by intros ->. Qed.

Lemma set_keys_match s :
  match eventMap s with Some m => m | None => ∅ end = keys s.
Proof. unfold keys. by destruct (eventMap s). Qed.

Lemma set_subscribed_keys n s :
  subscribed n s = tuple_entry <$> default [] (keys s !! n).
Proof.
  unfold subscribed, keys. destruct (eventMap s); simpl; [done|].
  by rewrite lookup_empty.
Qed.

(** On a well-formed instance the tuple that [on] allocates is new. *)
Lemma set_add_fresh s n callback context :
  wf s →
  set_add (Tuple (fresh s) (callback, context)) (default [] (keys s !! n)) =
  default [] (keys s !! n) ++ [Tuple (fresh s) (callback, context)].
Proof.
  intros (_ & Hmem). unfold set_add.
  rewrite bool_decide_eq_false_2; [done|].
  destruct (keys s !! n) as [members|] eqn:Hn; simpl; [|inversion 1].
  destruct (Hmem _ _ Hn) as (_ & _ & Hall). rewrite Forall_forall in Hall.
  intros Hin. destruct (Hall _ Hin) as [Hlt _]. simpl in Hlt. lia.
Qed.

Lemma set_wf_init : wf init.
Proof.
  unfold wf, keys. simpl. split; [done|]. intros *. by rewrite lookup_empty.
Qed.

Lemma set_wf_record i s : wf s → wf (record i s).
Proof. done. Qed.

Lemma set_wf_on n callback context s : wf s → wf (on n callback context s).2.
Proof.
  intros Hwf. pose proof Hwf as (Hne & Hmem). unfold on.
  destruct (is_function callback) eqn:Hf; simpl; [|done].
  rewrite set_keys_match, set_add_fresh by done.
  assert (NoDup (default [] (keys s !! n)) ∧
          Forall (λ t, tuple_id t < fresh s ∧
                       is_function (tuple_entry t).1 = true)
                 (default [] (keys s !! n))) as [Hnd Hall].
  { destruct (keys s !! n) as [old|] eqn:Hn; simpl.
    - by destruct (Hmem _ _ Hn) as (_ & ? & ?).
    - split; constructor. }
  generalize dependent (default [] (keys s !! n)). intros old Hnd Hall.
  split.
  { intros [= Hm]. by apply insert_non_empty in Hm. }
  intros n' members. unfold keys at 1. simpl. rewrite lookup_insert_Some.
  intros [[<- <-]|[Hnn Hn']].
  - split; [by destruct old|]. split.
    + apply NoDup_app. split; [done|]. split; [|apply NoDup_singleton].
      intros t Ht. rewrite Forall_forall in Hall.
      destruct (Hall _ Ht) as [Hlt _]. intros Hin.
      apply list_elem_of_singleton in Hin. subst t. simpl in Hlt. lia.
    + apply Forall_app. split.
      * eapply Forall_impl; [exact Hall|]. intros t [Hlt Hfun].
        simpl. split; [lia|done].
      * constructor; [simpl; split; [lia|done]|constructor].
  - destruct (Hmem _ _ Hn') as (Hnil & Hnd' & Hall').
    split; [done|]. split; [done|].
    eapply Forall_impl; [exact Hall'|]. intros t [Hlt Hfun].
    simpl. split; [lia|done].
Qed.

Lemma set_wf_off n callback context s : wf s → wf (off n callback context s).
Proof.
  intros Hwf. pose proof Hwf as (Hne & Hmem). unfold off.
  destruct (eventMap s) as [m|] eqn:Hm; [|done].
  destruct (m !! n) as [callbacks|] eqn:Hn; [|done].
  destruct (find _ _) as [t|]; [|done].
  rewrite (set_keys_Some _ _ Hm) in Hmem.
  set (callbacks' := set_delete t callbacks).
  set (m' := if bool_decide (length callbacks' = 0)
             then delete n m else <[n:=callbacks']> m).
  assert (keys (State (if bool_decide (size m' = 0) then None else Some m')
                      (fresh s) (trace s)) = m') as Hk.
  { unfold keys. simpl. case_bool_decide as Hsz; [|done].
    by apply map_size_empty_iff in Hsz. }
  unfold wf. rewrite Hk. simpl. split.
  { case_bool_decide as Hsz; [done|].
    intros [= Hm']. by rewrite Hm', map_size_empty in Hsz. }
  intros n' members. unfold m'.
  destruct (decide (length callbacks' = 0)) as [Hlen|Hlen].
  - rewrite (bool_decide_eq_true_2 _ Hlen), lookup_delete_Some.
    intros [_ Hn']. by apply Hmem in Hn'.
  - rewrite (bool_decide_eq_false_2 _ Hlen), lookup_insert_Some.
    intros [[<- <-]|[_ Hn']]; [|by apply Hmem in Hn'].
    destruct (Hmem _ _ Hn) as (_ & Hnd & Hall).
    split; [by destruct callbacks'|]. unfold callbacks', set_delete.
    split; [by apply NoDup_filter|].
    apply Forall_forall. intros u Hu. apply list_elem_of_filter in Hu as [_ Hu].
    rewrite Forall_forall in Hall. by apply Hall.
Qed.

Lemma set_wf_for_of call :
  (∀ cb ctx d s, wf s → wf (call cb ctx d s).2) →
  ∀ data snapshot s, wf s → wf (for_of call data snapshot s).2.
Proof.
  intros Hcall data snapshot.
  induction snapshot as [|t snapshot IH]; intros s Hs; simpl; [done|].
  specialize (Hcall (tuple_entry t).1 (tuple_entry t).2 data s Hs).
  destruct (call _ _ data s) as [[] s']; simpl in *; auto.
Qed.

Lemma set_wf_emit call :
  (∀ cb ctx d s, wf s → wf (call cb ctx d s).2) →
  ∀ n data s, wf s → wf (emit call n data s).2.
Proof.
  intros Hcall n data s Hs. unfold emit.
  destruct (eventMap s) as [m|]; [|done].
  destruct (m !! n); [|done]. by apply set_wf_for_of.
Qed.

Lemma set_wf_run body depth p s : wf s → wf (run_program body depth p s).2.
Proof.
  apply run_preserves;
    auto using set_wf_on, set_wf_off, set_wf_record, set_wf_emit.
Qed.

End SetFurther.

Section SetOperations.
Import EventfulSet.

Lemma set_off_no_match n callback context s :
  (callback, context) ∉ subscribed n s → off n callback context s = s.
Proof.
  unfold subscribed, off. intros Hno.
  destruct (eventMap s) as [m|]; [|done].
  destruct (m !! n) as [callbacks|]; [|done]. simpl in Hno.
  rewrite find_none_all; [done|].
  apply Forall_forall. intros t Ht. apply same_entry_false. intros Heq.
  apply Hno. rewrite <- Heq. by apply list_elem_of_fmap_2.
Qed.

Lemma set_off_other n other callback context s :
  other ≠ n →
  subscribed other (off n callback context s) = subscribed other s.
Proof.
  intros Hne. unfold off.
  destruct (eventMap s) as [m|] eqn:Hm; [|done].
  destruct (m !! n) as [callbacks|] eqn:Hn; [|done].
  destruct (find _ _) as [t|]; [|done].
  set (m' := if bool_decide (_ = 0) then delete n m else <[n:=_]> m).
  assert (m' !! other = m !! other) as Hm'.
  { unfold m'. case_bool_decide;
      [by rewrite lookup_delete_ne|by rewrite lookup_insert_ne]. }
  unfold subscribed at 2. rewrite Hm. unfold subscribed. simpl.
  case_bool_decide as Hsz.
  - apply map_size_empty_iff in Hsz.
    by rewrite <- Hm', Hsz, lookup_empty.
  - by rewrite Hm'.
Qed.

Lemma set_off_first n callback context s l1 l2 :
  wf s →
  subscribed n s = l1 ++ (callback, context) :: l2 →
  (callback, context) ∉ l1 →
  subscribed n (off n callback context s) = l1 ++ l2.
Proof.
  intros (_ & Hmem) Hs Hl1. unfold subscribed in Hs. unfold off.
  destruct (eventMap s) as [m|] eqn:Hm; [|by destruct l1].
  rewrite (set_keys_Some _ _ Hm) in Hmem.
  destruct (m !! n) as [callbacks|] eqn:Hn; [|by destruct l1].
  simpl in Hs.
  apply fmap_app_inv in Hs as (k1 & k' & -> & Hk' & ->).
  symmetry in Hk'.
  apply fmap_cons_inv in Hk' as (t & k2 & Ht & -> & ->).
  destruct (Hmem _ _ Hn) as (_ & Hnd & _).
  rewrite find_first; cycle 1.
  { apply Forall_forall. intros u Hu. apply same_entry_false. intros Heq.
    apply Hl1. rewrite <- Heq. by apply list_elem_of_fmap_2. }
  { apply same_entry_true. by rewrite Ht. }
  rewrite set_delete_middle by done. unfold subscribed. simpl.
  destruct (decide (length (k1 ++ k2) = 0)) as [Hlen|Hlen].
  - rewrite (bool_decide_eq_true_2 _ Hlen).
    apply length_zero_iff_nil in Hlen. apply app_eq_nil in Hlen as [-> ->].
    case_bool_decide; [done|]. by rewrite lookup_delete_eq.
  - rewrite (bool_decide_eq_false_2 _ Hlen).
    rewrite bool_decide_eq_false_2.
    + rewrite lookup_insert_eq. simpl. by rewrite fmap_app.
    + rewrite map_size_non_empty_iff. apply insert_non_empty.
Qed.

Lemma set_on_subscribed n callback context s :
  wf s → is_function callback = true →
  on n callback context s =
  (Normal,
   State (Some (<[n := default [] (keys s !! n) ++
                       [Tuple (fresh s) (callback, context)]]> (keys s)))
         (S (fresh s)) (trace s)).
Proof.
  intros Hwf Hf. unfold on. rewrite Hf. simpl.
  by rewrite set_keys_match, set_add_fresh.
Qed.

End SetOperations.

(** X10: on the set-based mixin, [on] with a function appends one entry
    behind those of the event name, invokes nothing and leaves the other
    event names alone. *)
Theorem set_on_appends
    (eventName : string) (callback context : value) (s : EventfulSet.state) :
  EventfulSet.wf s →
  typeof callback = "function" →
  let r := EventfulSet.on eventName callback context s in
  r.1 = Normal ∧
  EventfulSet.subscribed eventName r.2 =
    EventfulSet.subscribed eventName s ++ [(callback, context)] ∧
  (∀ other, other ≠ eventName →
     EventfulSet.subscribed other r.2 = EventfulSet.subscribed other s) ∧
  EventfulSet.trace r.2 = EventfulSet.trace s.
Proof.
  intros Hwf Ht r.
  assert (is_function callback = true) as Hf
    by (unfold is_function; by rewrite bool_decide_eq_true).
  unfold r. rewrite set_on_subscribed by done. simpl.
  split; [done|]. split; [|split; [|done]].
  - unfold EventfulSet.subscribed at 1. simpl.
    rewrite lookup_insert_eq, set_subscribed_keys. simpl.
    by rewrite fmap_app.
  - intros other Hne. unfold EventfulSet.subscribed at 1. simpl.
    by rewrite lookup_insert_ne, set_subscribed_keys.
Qed.

Lemma set_on_appends_witness :
  let s := (EventfulSet.on "x" (VFun 1) VUndefined EventfulSet.init).2 in
  let r := EventfulSet.on "x" (VFun 1) VUndefined s in
  r.1 = Normal ∧
  EventfulSet.subscribed "x" r.2 = [(VFun 1, VUndefined); (VFun 1, VUndefined)].
Proof.
  intros s r.
  destruct (set_on_appends "x" (VFun 1) VUndefined s) as (Hn & Hsub & _).
  - apply set_wf_on, set_wf_init.
  - reflexivity.
  - split; [exact Hn|]. etrans; [exact Hsub|]. by vm_compute.
Defined.

(** X11: on the set-based mixin, [off] removes the first entry in
    insertion order whose callback and context are the given ones and
    no other; without such an entry it returns the instance unchanged;
    the other event names keep their entries. *)
Theorem set_off_removes_first_match
    (eventName : string) (callback context : value) (s : EventfulSet.state) :
  EventfulSet.wf s →
  let s' := EventfulSet.off eventName callback context s in
  (∀ l1 l2,
     EventfulSet.subscribed eventName s = l1 ++ (callback, context) :: l2 →
     (callback, context) ∉ l1 →
     EventfulSet.subscribed eventName s' = l1 ++ l2) ∧
  ((callback, context) ∉ EventfulSet.subscribed eventName s → s' = s) ∧
  (∀ other, other ≠ eventName →
     EventfulSet.subscribed other s' = EventfulSet.subscribed other s) ∧
  EventfulSet.trace s' = EventfulSet.trace s.
Proof.
  intros Hwf s'. split; [|split; [|split]].
  - intros l1 l2 Hs Hl1. by apply set_off_first.
  - apply set_off_no_match.
  - intros other Hne. by apply set_off_other.
  - apply set_off_trace.
Qed.

Lemma set_off_removes_first_match_witness :
  let s :=
    (EventfulSet.run_program Scenario.silent 1
       [Aon "x" (VFun 1) VUndefined; Aon "x" (VFun 2) VUndefined;
        Aon "x" (VFun 1) VUndefined] EventfulSet.init).2 in
  EventfulSet.subscribed "x" (EventfulSet.off "x" (VFun 1) VUndefined s) =
  [(VFun 2, VUndefined); (VFun 1, VUndefined)].
Proof.
  intros s.
  destruct (set_off_removes_first_match "x" (VFun 1) VUndefined s)
    as (Hfirst & _).
  - apply set_wf_run, set_wf_init.
  - apply (Hfirst [] [(VFun 2, VUndefined); (VFun 1, VUndefined)]).
    + by vm_compute.
    + inversion 1.
Defined.

(** X12: on the set-based mixin too, after any program on a new
    instance an event name is a key of the map exactly when it has an
    entry, and the map is [null] exactly when no event name has one. *)
Theorem set_event_map_is_minimal
    (body : nat → script) (depth : nat) (p : script) :
  let s := (EventfulSet.run_program body depth p EventfulSet.init).2 in
  (∀ n, is_Some (EventfulSet.keys s !! n) ↔ EventfulSet.subscribed n s ≠ []) ∧
  (EventfulSet.eventMap s = None ↔ ∀ n, EventfulSet.subscribed n s = []).
Proof.
  intros s.
  assert (EventfulSet.wf s) as (Hne & Hmem) by apply set_wf_run, set_wf_init.
  assert (∀ n, is_Some (EventfulSet.keys s !! n)
               ↔ EventfulSet.subscribed n s ≠ []) as Hkeys.
  { intros n. rewrite set_subscribed_keys.
    destruct (EventfulSet.keys s !! n) as [members|] eqn:Hn; simpl.
    - split; [|by eauto]. intros _.
      destruct (Hmem _ _ Hn) as (Hnil & _). by destruct members.
    - split; [by intros [? ?]|done]. }
  split; [exact Hkeys|]. split.
  - intros Hm n. unfold EventfulSet.subscribed. by rewrite Hm.
  - intros Hall. destruct (EventfulSet.eventMap s) as [m|] eqn:Hm; [|done].
    exfalso. destruct (map_choose m) as (n & members & Hn).
    { intros ->. by apply Hne. }
    apply (proj1 (Hkeys n)); [|apply Hall].
    unfold EventfulSet.keys. rewrite Hm. simpl. eauto.
Qed.

(** * Further properties of the decorator *)

Lemma _emits_checks_the_class_witness :
  ∃ e,
    Emits._emits (U := unit) (Instance.prototype_of Scenario.ArrayClass)
      "foo" None None "change" = Emits.Rejected e.
Proof.
  apply <- (_emits_checks_the_class (U := unit) Scenario.ArrayClass
              "foo" "change" None None).
  - reflexivity.
  - vm_compute. repeat split; repeat constructor.
Defined.

(** X14: on a class that passes the check, the decorator does nothing
    (it only warns) exactly when the property cannot be written: an
    accessor without a setter, or a data property that is not writable.
    Otherwise it installs a pair that forwards to the very accessors of
    the descriptor, or a pair backed by the hidden slot whose initial
    value is the descriptor's value ([undefined] without a descriptor);
    it was called as a property decorator exactly when it was passed no
    descriptor. *)
Theorem _emits_declines_exactly_read_only
    {U : Type} (prototype : Instance.object) (propName eventName : string)
    (descriptor ownDescriptor : option (Emits.PropertyDescriptor U)) :
  Instance.hasInstance (Instance.OObj prototype) = true →
  let result :=
    Emits._emits prototype propName descriptor ownDescriptor eventName in
  ((∃ warning, result = Emits.Declined warning) ↔
   ∃ d, Emits.resolved descriptor ownDescriptor = Some d ∧ Emits.read_only d) ∧
  (∀ a called, result = Emits.Installed a called →
     called = bool_decide (descriptor = None) ∧
     match a with
     | Emits.Forwarding originalGet originalSet =>
         ∃ d, Emits.resolved descriptor ownDescriptor = Some d ∧
              Emits.d_get d = originalGet ∧ Emits.d_set d = Some originalSet
     | Emits.Backed initialValue =>
         match Emits.resolved descriptor ownDescriptor with
         | None => initialValue = VUndefined
         | Some d =>
             Emits.d_get d = None ∧ Emits.d_set d = None ∧
             Emits.d_writable d = true ∧ initialValue = Emits.d_value d
         end
     end).
Proof.
  intros Hinst result. unfold result, Emits._emits. rewrite Hinst. simpl.
  assert (match descriptor with Some _ => false | None => true end
          = bool_decide (descriptor = None)) as -> by by destruct descriptor.
  fold (Emits.resolved descriptor ownDescriptor).
  destruct (Emits.resolved descriptor ownDescriptor) as [[g st v wr]|];
    unfold Emits.read_only; simpl.
  - destruct g as [g|], st as [st|], wr; simpl; split;
      try (split; [by intros [? ?]|]);
      try (split; [intros _; eexists; split; [done|]; simpl; by eauto|]);
      try (intros _; by eexists);
      try (intros (d & [= <-] & Hs & Hw); simpl in *;
           destruct Hw as [[? ?]|?]; done);
      try (intros a called [= <- <-]; split; [done|]; by eauto);
      try done.
  - split; [split; [by intros [? ?]|by intros (? & ? & _)]|].
    by intros a called [= <- <-].
Qed.

Lemma _emits_declines_exactly_read_only_witness :
  (∃ warning,
     Emits._emits (U := unit) (Instance.prototype_of Scenario.Foo) "foo" None
       (Some (Emits.Descriptor None None (VNum 123) false)) "change"
     = Emits.Declined warning).
Proof.
  destruct (_emits_declines_exactly_read_only (U := unit)
              (Instance.prototype_of Scenario.Foo) "foo" "change" None
              (Some (Emits.Descriptor None None (VNum 123) false)))
    as [Hdeclined _]; [reflexivity|].
  apply Hdeclined. eexists. split; [reflexivity|].
  split; [reflexivity|]. by right.
Defined.

Section Deferred.
Import Emits.
Context {U : Type}.

(** Assignments through the backed pair all complete; each appends one
    job and none touches the registry. *)
Lemma assign_all_backed eventName propName initialValue values :
  ∀ (this : instance U) w,
  let r := assign_all eventName propName (Backed initialValue) values this w in
  r.1.1 = Normal ∧
  microtasks r.2 =
    microtasks w ++
    replicate (length values) (Job (self this) eventName (VStr propName)) ∧
  registry r.1.2 = registry this ∧
  self r.1.2 = self this ∧
  vName r.1.2 = from_option Some (vName this) (last values).
Proof.
  induction values as [|v values IH]; intros this w.
  - simpl. by rewrite app_nil_r.
  - cbn [assign_all set].
    destruct (IH (Inst (self this) (registry this) (Some v) (fields this))
                (schedule eventName propName
                   (Inst (self this) (registry this) (Some v) (fields this))
                   (if negb (initialValueIsSet w)
                    then Shared true (microtasks w) else w)))
      as (Hn & Hq & Hr & Hs & Hv).
    cbv zeta in *. split; [exact Hn|]. split; [|split; [exact Hr|]].
    + rewrite Hq. simpl. destruct (initialValueIsSet w); simpl;
        by rewrite <- app_assoc.
    + split; [exact Hs|]. rewrite Hv. cbn [vName].
      destruct values as [|v' values]; [done|].
      rewrite (last_cons_cons v v' values).
      destruct (last (v' :: values)) eqn:Hlast; [done|].
      by apply last_None in Hlast.
Qed.

Variable body : nat → script.

(** Draining [k] jobs of one event with quiet listeners runs [k]
    dispatch passes over the subscribed entries. *)
Lemma drain_quiet d eventName payload k : ∀ (this : instance U),
  Forall (quiet body) (Eventful.subscribed eventName (registry this)) →
  registry (drain body (S d)
              (replicate k (Job (self this) eventName payload)) this) =
  Eventful.observe
    (mjoin (replicate k
              (invocation_of payload <$>
               Eventful.subscribed eventName (registry this))))
    (registry this).
Proof.
  induction k as [|k IH]; intros this Hq; cbn [replicate drain].
  - simpl. by rewrite observe_nil.
  - cbn [job_this]. rewrite bool_decide_eq_true_2 by done.
    unfold emitEvent. cbn [job_event job_payload].
    rewrite emit_quiet by done. cbn [fst snd].
    rewrite (IH (Inst (self this)
                   (Eventful.observe
                      (invocation_of payload <$>
                       Eventful.subscribed eventName (registry this))
                      (registry this))
                   (vName this) (fields this))) by done.
    cbn [registry]. by rewrite subscribed_observe, observe_observe.
Qed.

End Deferred.

(** X17: assigning a decorated field several times invokes no listener
    while the assignments run; the field then holds the last value; and
    when the host runs the pending jobs, the listeners of the event are
    dispatched once per assignment, each time with the property name as
    the payload: nothing is coalesced. *)
Theorem every_write_is_delivered_later
    {U : Type} (body : nat → script) (depth : nat)
    (eventName propName : string) (initialValue : value)
    (values : list value) (this : Emits.instance U) (w : Emits.shared) :
  Forall (quiet body)
    (Eventful.subscribed eventName (Emits.registry this)) →
  Emits.microtasks w = [] →
  let a := Emits.Backed initialValue in
  let r := Emits.assign_all eventName propName a values this w in
  let after := Emits.drain body (S depth) (Emits.microtasks r.2) r.1.2 in
  r.1.1 = Normal ∧
  Emits.registry r.1.2 = Emits.registry this ∧
  Emits.vName r.1.2 = from_option Some (Emits.vName this) (last values) ∧
  Emits.registry after =
    Eventful.observe
      (mjoin (replicate (length values)
                (invocation_of (VStr propName) <$>
                 Eventful.subscribed eventName (Emits.registry this))))
      (Emits.registry this).
Proof.
  intros Hq Hw a r after.
  destruct (assign_all_backed eventName propName initialValue values this w)
    as (Hn & Hjobs & Hr & Hs & Hv).
  fold a in Hn, Hjobs, Hr, Hs, Hv. fold r in Hn, Hjobs, Hr, Hs, Hv.
  split; [exact Hn|]. split; [exact Hr|]. split; [exact Hv|].
  unfold after. rewrite Hjobs, Hw. simpl. rewrite <- Hs, <- Hr.
  apply drain_quiet. by rewrite Hr.
Qed.

Lemma every_write_is_delivered_later_witness :
  let this :=
    Emits.Inst 1 (Eventful.on "change" (VFun 1) VUndefined Eventful.init).2
      None tt in
  let a := Emits.Backed (VNum 123) in
  let r :=
    Emits.assign_all "change" "foo" a [VNum 456; VNum 789] this
      (Emits.Shared false []) in
  let after := Emits.drain Scenario.silent 1 (Emits.microtasks r.2) r.1.2 in
  r.1.1 = Normal ∧
  Emits.registry r.1.2 = Emits.registry this ∧
  Emits.vName r.1.2 = Some (VNum 789) ∧
  Emits.registry after =
    Eventful.observe
      [Invoked (VFun 1) VUndefined (VStr "foo");
       Invoked (VFun 1) VUndefined (VStr "foo")]
      (Emits.registry this).
Proof.
  intros this a r after.
  apply (every_write_is_delivered_later Scenario.silent 0 "change" "foo"
           (VNum 123) [VNum 456; VNum 789] this (Emits.Shared false [])).
  - vm_compute. repeat constructor. by exists 1.
  - reflexivity.
Defined.

(** * Dispatch with listeners that return and at most subscribe *)

Section Subscribers.
Import Eventful.
Variable body : nat → script.

Lemma wf_call depth callback context data s :
  wf s → wf (call body depth callback context data s).2.
Proof.
  apply invoke_preserves; auto using wf_on, wf_off, wf_record, wf_emit.
Qed.

(** With listeners that only subscribe, one pass of the array-based
    [emit] invokes the entries it found, appends at most, and keeps the
    instance well-formed. *)
Lemma emit_subscribers depth name data s :
  wf s →
  Forall (subscriber body) (subscribed name s) →
  ∃ s' added,
    emit (call body (S depth)) name data s = (Normal, s') ∧
    trace s' = trace s ++ (invocation_of data <$> subscribed name s) ∧
    subscribed name s' = subscribed name s ++ added ∧
    wf s'.
Proof.
  intros Hwf Hsub.
  assert (wf (emit (call body (S depth)) name data s).2) as Hwf'.
  { apply wf_emit; [|done]. intros *. apply wf_call. }
  destruct Hwf as (_ & Harr & _). unfold emit in *.
  destruct (keys s !! name) as [a|] eqn:Ha.
  - rewrite (subscribed_key _ _ _ Ha) in *.
    destruct (Harr _ _ Ha) as (Hlt & _).
    pose proof Ha as Ha'. unfold keys in Ha'.
    destruct (eventMap s) as [m|] eqn:Hm; simpl in Ha';
      [|by rewrite lookup_empty in Ha'].
    rewrite Ha' in *.
    destruct (emit_loop_subscribers body depth name a data
                (array s a) (length (array s a)) 0 s [])
      as (s' & added & Hloop & Harr' & Hk' & Ht');
      [by rewrite app_nil_r|done|done|done|lia|].
    rewrite Hloop in Hwf'. exists s', added.
    split; [exact Hloop|]. split; [exact Ht'|].
    split; [by rewrite (subscribed_key _ _ _ Hk')|exact Hwf'].
  - exists s, []. rewrite (subscribed_no_key _ _ Ha) in *.
    unfold keys in Ha.
    destruct (eventMap s) as [m|]; simpl in Ha.
    + rewrite Ha in *. split; [done|]. simpl. by rewrite app_nil_r.
    + split; [done|]. simpl. by rewrite app_nil_r.
Qed.

(** Where every function only subscribes, every stored entry is such a
    listener. *)
Lemma subscribers_everywhere name s :
  (∀ g, Forall subscribing (body g)) →
  wf s → Forall (subscriber body) (subscribed name s).
Proof.
  intros Hall Hwf.
  eapply Forall_impl; [by apply wf_subscribed_functions|].
  intros [c x] Hf. simpl in Hf. apply is_function_VFun in Hf as [g ->].
  by exists g.
Qed.

End Subscribers.

(** C2, as the code has it: after [on(name, cb_1, ctx_1)], ...,
    [on(name, cb_n, ctx_n)] and then [emit(name, payload)], with
    listeners that return normally and call neither [off] nor [emit] on
    the instance (they may subscribe further listeners), every entry
    subscribed to [name] has been invoked exactly once, in registration
    order, with its context as the receiver and [payload] as the
    argument; entries subscribed during the pass are behind them and
    were not invoked. *)
Theorem emit_invokes_in_registration_order
    (body : nat → script) (depth : nat) (name : string)
    (subs : list entry) (payload : value) (s : Eventful.state) :
  Eventful.wf s →
  Forall (subscriber body) (Eventful.subscribed name s) →
  Forall (subscriber body) subs →
  ∃ s' added,
    Eventful.run_program body (S depth)
      (((λ t : entry, Aon name t.1 t.2) <$> subs) ++ [Aemit name payload]) s
      = (Normal, s') ∧
    Eventful.subscribed name s' =
      Eventful.subscribed name s ++ subs ++ added ∧
    Eventful.trace s' =
      Eventful.trace s ++
      (invocation_of payload <$> (Eventful.subscribed name s ++ subs)).
Proof.
  intros Hwf Hpre Hsubs.
  pose proof (wf_run body (S depth)
                ((λ t : entry, Aon name t.1 t.2) <$> subs) s Hwf) as Hwf1.
  unfold Eventful.run_program, run in *.
  rewrite exec_app.
  destruct (exec_subscriptions
              (invoke Eventful.on Eventful.off Eventful.emit Eventful.record
                      body (S depth)) name subs s)
    as (s1 & Hexec & Hs1 & Ht1).
  { eapply Forall_impl; [exact Hsubs|]. by intros t (g & -> & _). }
  rewrite Hexec in Hwf1 |- *. simpl in Hwf1.
  cbn [exec step].
  change (invoke Eventful.on Eventful.off Eventful.emit Eventful.record
            body (S depth)) with (Eventful.call body (S depth)).
  destruct (emit_subscribers body depth name payload s1 Hwf1)
    as (s' & added & Hemit & Ht & Hs' & _).
  { rewrite Hs1. by apply Forall_app. }
  rewrite Hemit. exists s', added.
  split; [done|]. split.
  - by rewrite Hs', Hs1, <- app_assoc.
  - by rewrite Ht, Hs1, Ht1.
Qed.

Lemma emit_invokes_in_registration_order_witness :
  ∃ s' added,
    Eventful.run_program Scenario.adding 1
      [Aon "x" (VFun 1) (VObj 10); Aon "x" (VFun 2) (VObj 20);
       Aemit "x" (VNum 7)] Eventful.init
      = (Normal, s') ∧
    Eventful.subscribed "x" s' =
      [(VFun 1, VObj 10); (VFun 2, VObj 20)] ++ added ∧
    Eventful.trace s' =
      [Invoked (VFun 1) (VObj 10) (VNum 7); Invoked (VFun 2) (VObj 20) (VNum 7)].
Proof.
  apply (emit_invokes_in_registration_order Scenario.adding 0 "x"
           [(VFun 1, VObj 10); (VFun 2, VObj 20)] (VNum 7) Eventful.init).
  - apply wf_init.
  - constructor.
  - repeat constructor.
    + exists 1. split; [done|]. by repeat constructor.
    + exists 2. split; [done|]. by repeat constructor.
Defined.

(** C2 as it is worded does not hold when a listener throws: [emit] does
    not catch the exception, so the entry registered behind the throwing
    listener is not invoked. *)
Lemma emit_stops_at_a_throwing_listener :
  let r :=
    Eventful.run_program Scenario.throwing 1
      [Aon "x" (VFun 1) VUndefined; Aon "x" (VFun 2) VUndefined;
       Aemit "x" (VNum 7)] Eventful.init in
  r.1 = Throw (Error "boom") ∧
  Eventful.subscribed "x" r.2 = [(VFun 1, VUndefined); (VFun 2, VUndefined)] ∧
  Eventful.trace r.2 = [Invoked (VFun 1) VUndefined (VNum 7)] ∧
  Invoked (VFun 2) VUndefined (VNum 7) ∉ Eventful.trace r.2.
Proof.
  vm_compute. repeat split.
  intros Hin. apply list_elem_of_singleton in Hin. discriminate.
Qed.

(** C7, as the code has it: subscription is not deduplicated.  Calling
    [on] twice with the same callback and context appends two entries,
    and one [off] takes out one of them, whatever the listeners do.
    Where listeners return normally and call neither [off] nor [emit]
    on the instance, the next [emit] invokes the callback once per
    entry, that is twice, and after one [off] a later [emit] still
    invokes it, once. *)
Theorem duplicate_subscriptions_fire_independently
    (body : nat → script) (depth : nat) (name : string) (f : nat)
    (context payload : value) (s : Eventful.state) :
  let e : entry := (VFun f, context) in
  let twice := [Aon name (VFun f) context; Aon name (VFun f) context] in
  (∃ s1,
     Eventful.run_program body depth twice s = (Normal, s1) ∧
     Eventful.subscribed name s1 = Eventful.subscribed name s ++ [e; e] ∧
     Eventful.trace s1 = Eventful.trace s ∧
     (e ∉ Eventful.subscribed name s →
      Eventful.subscribed name (Eventful.off name (VFun f) context s1) =
        Eventful.subscribed name s ++ [e])) ∧
  (Eventful.wf s →
   (∀ g, Forall subscribing (body g)) →
   e ∉ Eventful.subscribed name s →
   ∃ s1 s2 s3 added added',
     Eventful.run_program body (S depth) twice s = (Normal, s1) ∧
     Eventful.run_program body (S depth) [Aemit name payload] s1
       = (Normal, s2) ∧
     Eventful.trace s2 =
       Eventful.trace s1 ++
       (invocation_of payload <$> Eventful.subscribed name s) ++
       [Invoked (VFun f) context payload; Invoked (VFun f) context payload] ∧
     Eventful.subscribed name s2 =
       Eventful.subscribed name s ++ [e; e] ++ added ∧
     Eventful.run_program body (S depth)
       [Aoff name (VFun f) context; Aemit name payload] s2
       = (Normal, s3) ∧
     Eventful.trace s3 =
       Eventful.trace s2 ++
       (invocation_of payload <$> Eventful.subscribed name s) ++
       [Invoked (VFun f) context payload] ++
       (invocation_of payload <$> added) ∧
     Eventful.subscribed name s3 =
       Eventful.subscribed name s ++ [e] ++ added ++ added').
Proof.
  intros e twice.
  assert (∀ d, ∃ s1,
            Eventful.run_program body d twice s = (Normal, s1) ∧
            Eventful.subscribed name s1 =
              Eventful.subscribed name s ++ [e; e] ∧
            Eventful.trace s1 = Eventful.trace s) as Htwice.
  { intros d. unfold Eventful.run_program, run.
    apply (exec_subscriptions _ name [e; e] s). by repeat constructor. }
  split.
  - destruct (Htwice depth) as (s1 & Hrun & Hs1 & Ht1).
    exists s1. split; [exact Hrun|]. split; [exact Hs1|]. split; [exact Ht1|].
    intros Hnew.
    by destruct (off_first_match name (VFun f) context s1
                   (Eventful.subscribed name s) [e] Hs1 Hnew).
  - intros Hwf Hall Hnew.
    destruct (Htwice (S depth)) as (s1 & Hrun & Hs1 & Ht1).
    pose proof (wf_run body (S depth) twice s Hwf) as Hwf1.
    rewrite Hrun in Hwf1. simpl in Hwf1.
    destruct (emit_subscribers body depth name payload s1 Hwf1)
      as (s2 & added & Hemit & Ht2 & Hs2 & Hwf2);
      [by apply subscribers_everywhere|].
    rewrite Hs1 in Ht2, Hs2.
    destruct (off_first_match name (VFun f) context s2
                (Eventful.subscribed name s) (e :: added))
      as [Hs2' Ht2']; [by rewrite Hs2, <- app_assoc|done|].
    pose proof (wf_off name (VFun f) context s2 Hwf2) as Hwf2'.
    destruct (emit_subscribers body depth name payload
                (Eventful.off name (VFun f) context s2) Hwf2')
      as (s3 & added' & Hemit' & Ht3 & Hs3 & _);
      [by apply subscribers_everywhere|].
    rewrite Hs2' in Ht3, Hs3. rewrite Ht2' in Ht3.
    exists s1, s2, s3, added, added'.
    split; [exact Hrun|]. unfold Eventful.run_program, run.
    change (invoke Eventful.on Eventful.off Eventful.emit Eventful.record
              body (S depth)) with (Eventful.call body (S depth)).
    cbn [exec step]. rewrite Hemit, Hemit'.
    split; [done|]. split; [by rewrite Ht2, fmap_app|].
    split; [by rewrite Hs2, <- app_assoc|]. split; [done|]. split.
    + rewrite Ht3, fmap_app. by rewrite fmap_cons.
    + rewrite Hs3. by rewrite <- app_assoc.
Qed.

Lemma duplicate_subscriptions_fire_independently_witness :
  ∃ s1 s2 s3 added added',
    Eventful.run_program Scenario.adding 1
      [Aon "x" (VFun 2) VUndefined; Aon "x" (VFun 2) VUndefined] Eventful.init
      = (Normal, s1) ∧
    Eventful.run_program Scenario.adding 1 [Aemit "x" (VNum 7)] s1
      = (Normal, s2) ∧
    Eventful.trace s2 =
      Eventful.trace s1 ++
      [Invoked (VFun 2) VUndefined (VNum 7);
       Invoked (VFun 2) VUndefined (VNum 7)] ∧
    Eventful.subscribed "x" s2 =
      [(VFun 2, VUndefined); (VFun 2, VUndefined)] ++ added ∧
    Eventful.run_program Scenario.adding 1
      [Aoff "x" (VFun 2) VUndefined; Aemit "x" (VNum 7)] s2
      = (Normal, s3) ∧
    Eventful.trace s3 =
      Eventful.trace s2 ++
      Invoked (VFun 2) VUndefined (VNum 7) ::
      (invocation_of (VNum 7) <$> added) ∧
    Eventful.subscribed "x" s3 = (VFun 2, VUndefined) :: added ++ added'.
Proof.
  destruct (duplicate_subscriptions_fire_independently Scenario.adding 0 "x"
              2 VUndefined (VNum 7) Eventful.init) as [_ Hdispatch].
  apply Hdispatch.
  - apply wf_init.
  - intros [|[|g]]; by repeat constructor.
  - inversion 1.
Defined.

(** C7 as it is worded does not hold when the callback throws: with the
    pair subscribed twice, [emit] invokes the callback once and the
    exception ends the pass before the second entry. *)
Lemma throwing_duplicate_is_invoked_once :
  let r :=
    Eventful.run_program Scenario.throwing 1
      [Aon "x" (VFun 1) VUndefined; Aon "x" (VFun 1) VUndefined;
       Aemit "x" (VNum 7)] Eventful.init in
  r.1 = Throw (Error "boom") ∧
  Eventful.subscribed "x" r.2 = [(VFun 1, VUndefined); (VFun 1, VUndefined)] ∧
  Eventful.trace r.2 = [Invoked (VFun 1) VUndefined (VNum 7)].
Proof. by vm_compute. Qed.
